(** * WhatsApp summarizer: formatter, chunker and summarization pipeline

    A shallow embedding of [src/lib/formatting.js], [src/lib/tokenizer.js],
    [src/prompts/*.js] and [src/services/llm.js], and the properties of the
    token-budgeted chunking and progressive-consolidation pipeline.

    Conventions.  A JavaScript string is a [string]; its characters stand for
    UTF-16 code units (the 8-bit characters of [string] cover U+0000 to
    U+00FF).  A field that may be absent from a record is an [option]
    ([None] is the JavaScript [undefined]).  An exception is the [Throw]
    branch of [Outcome].  The tiktoken encoder, the [Date] library and the
    completion server are not part of the repository: they are the
    variables of section [Summarizer]. *)

From Stdlib Require Import ZArith QArith Ascii String.
From stdpp Require Import base list strings pretty gmap.

Open Scope string_scope.
Open Scope list_scope.
Open Scope stdpp_scope.
Open Scope nat_scope.

(** ** JavaScript string primitives used by the sources *)

Module JS.

Definition dq : string := String "034"%char "".
Definition nl : string := String "010"%char "".

(** White space and line terminators removed by [String.prototype.trim],
    among the code units below U+0100: TAB, LF, VT, FF, CR, SP, NBSP. *)
Definition isWhiteSpace (c : ascii) : bool :=
  bool_decide (nat_of_ascii c ∈ [9; 10; 11; 12; 13; 32; 160]).

Fixpoint trimStart (s : string) : string :=
  match s with
  | EmptyString => EmptyString
  | String c s' => if isWhiteSpace c then trimStart s' else s
  end.

Fixpoint trimEnd (s : string) : string :=
  match s with
  | EmptyString => EmptyString
  | String c s' =>
      match trimEnd s' with
      | EmptyString => if isWhiteSpace c then EmptyString else String c EmptyString
      | t => String c t
      end
  end.

Definition trim (s : string) : string := trimEnd (trimStart s).

(** A string made of white space only (the empty string is one). *)
Fixpoint whitespaceOnly (s : string) : bool :=
  match s with
  | EmptyString => true
  | String c s' => isWhiteSpace c && whitespaceOnly s'
  end.

(** [s.substring(0, n)] for [n >= 0]: the first [n] code units, or all of
    [s] when it is shorter. *)
Definition substring0 (n : nat) (s : string) : string := String.substring 0 n s.

(** [s.includes('@')] *)
Fixpoint includesAt (s : string) : bool :=
  match s with
  | EmptyString => false
  | String c s' => if decide (c = "@"%char) then true else includesAt s'
  end.

(** [s.split('@')[0]]: the part of [s] before its first ['@']. *)
Fixpoint beforeAt (s : string) : string :=
  match s with
  | EmptyString => EmptyString
  | String c s' => if decide (c = "@"%char) then EmptyString else String c (beforeAt s')
  end.

Fixpoint repeatChar (n : nat) (c : ascii) : string :=
  match n with
  | 0 => EmptyString
  | S n' => String c (repeatChar n' c)
  end.

(** [s.padStart(n, c)] for a one-character pad. *)
Definition padStart (n : nat) (c : ascii) (s : string) : string :=
  repeatChar (n - String.length s) c +:+ s.

(** [xs.join(sep)] *)
Fixpoint join (sep : string) (xs : list string) : string :=
  match xs with
  | [] => EmptyString
  | x :: rest =>
      match rest with
      | [] => x
      | _ :: _ => x +:+ sep +:+ join sep rest
      end
  end.

(** A number rendered by a template literal: decimal digits, or [NaN]. *)
Definition showNumber (n : option nat) : string :=
  match n with
  | Some k => pretty k
  | None => "NaN"
  end.

(** A string field rendered by a template literal. *)
Definition showField (x : option string) : string :=
  match x with
  | Some s => s
  | None => "undefined"
  end.

(** [x || y] on string fields: [x] unless it is absent or empty. *)
Definition orElse (x : option string) (y : string) : string :=
  match x with
  | Some s => if decide (s = "") then y else s
  | None => y
  end.

(** Truthiness of a boolean field. *)
Definition truthy (b : option bool) : bool :=
  match b with
  | Some true => true
  | _ => false
  end.

End JS.
Import JS.

(** ** Exceptions *)

Inductive Exn : Type :=
| TypeError       (* a property read on [undefined] *)
| RangeError      (* [toISOString] on an invalid date *)
| RequestFailed.  (* [axios.post] rejected: transport failure or non-2xx *)

Inductive Outcome (A : Type) : Type :=
| Ok (a : A)
| Throw (e : Exn).
Arguments Ok {A} a.
Arguments Throw {A} e.

Global Instance Outcome_ret : MRet Outcome := fun _ a => Ok a.
Global Instance Outcome_bind : MBind Outcome := fun _ _ f m =>
  match m with
  | Ok a => f a
  | Throw e => Throw e
  end.

Fixpoint mapOutcome {A B : Type} (f : A → Outcome B) (xs : list A) : Outcome (list B) :=
  match xs with
  | [] => Ok []
  | x :: rest =>
      match f x with
      | Throw e => Throw e
      | Ok y =>
          match mapOutcome f rest with
          | Throw e => Throw e
          | Ok ys => Ok (y :: ys)
          end
      end
  end.

(** ** Data model *)

(** The quoted message carried by a formatted message. *)
Record QuotedMsg : Type := {
  q_author : option string;
  q_body : option string
}.

(** A message record as the formatter and the pipeline receive it (built by
    [formatMessage], or read back from a saved JSON file). *)
Record Message : Type := {
  timestamp : option string;
  from_ : option string;
  author : option string;
  body : option string;
  hasMedia : option bool;
  fromMe : option bool;
  quotedMsg : option QuotedMsg
}.


(** A message with nothing to summarize: no body, an empty or
    white-space body, or a media attachment. *)
Definition unsummarizable (m : Message) : bool :=
  match body m with
  | None => true
  | Some b => whitespaceOnly b
  end || truthy (hasMedia m).

(** The quoted message, when there is one, carries a body. *)
Definition quotedBodyPresent (m : Message) : bool :=
  match quotedMsg m with
  | None => true
  | Some q => bool_decide (is_Some (q_body q))
  end.

(** A raw message of the chat client, as [formatMessage] reads it. *)
Record RawQuoted : Type := {
  rq_notifyName : option string;
  rq_body : option string
}.

Record RawData : Type := {
  notifyName : option string;
  data_quotedMsg : option RawQuoted
}.

Record RawMessage : Type := {
  raw_timestamp : option Z;      (* seconds since the epoch *)
  raw_from : option string;
  raw_author : option string;
  raw_body : option string;
  raw_hasMedia : option bool;
  raw_fromMe : option bool;
  _data : option RawData
}.

(** [config/config.js], the [llm] part. *)
Record Config : Type := {
  apiUrl : string;
  maxContextForMessages : Z;
  maxCompletionTokens : Z;
  temperature : Q
}.

Definition defaultConfig : Config := {|
  apiUrl := "http://localhost:1234/v1/chat/completions";
  maxContextForMessages := 3000;
  maxCompletionTokens := 900;
  temperature := (1 # 10)%Q
|}.

(** The body of one completion request: [messages[0]] is the system
    instruction, [messages[1]] the user prompt. *)
Record Request : Type := {
  url : string;
  model : string;
  system : string;
  user : string;
  rq_temperature : Q;
  max_tokens : Z
}.

Inductive Response : Type :=
| Rejected                       (* the request failed *)
| Malformed                      (* no [data.choices[0].message] *)
| Completion (content : string).

Global Instance Response_eq_dec : EqDecision Response.
Proof. solve_decision. Defined.

Record Event : Type := {
  ev_request : Request;
  ev_response : Response
}.

(** The completion server: its answer may depend on everything exchanged
    so far. *)
Definition LLM : Type := list Event → Request → Response.

Definition isCompletion (e : Event) : bool :=
  match ev_response e with
  | Completion _ => true
  | _ => false
  end.

(** ** Prompt templates ([src/prompts]) *)

Definition getInitialPrompt (chatText : string) : string :=
  "You are analyzing WhatsApp messages from a group conversation.

Summarize ONLY the information explicitly present in these chat messages. Focus on:
- Main topics discussed with DIRECT QUOTES when possible
- Factual information shared by participants (avoid interpretations)
- Questions asked and their exact answers if provided
- Decisions that were explicitly stated
- DO NOT add any information, names, or topics not directly mentioned in the messages

IMPORTANT: When you see [replying to X: " +:+ dq +:+ "message" +:+ dq +:+ "] in a message, this indicates the message is a reply to a previous message by user X. Use this reply context to:
- Better understand conversation threads
- Connect related messages even when they're separated by other messages
- Identify question-answer pairs when someone replies to a question
- Follow the flow of discussions on specific topics

If something is unclear or ambiguous, indicate this with phrases like " +:+ dq +:+ "possibly discussing" +:+ dq +:+ " or " +:+ dq +:+ "unclear context about" +:+ dq +:+ ". If you're unsure about a topic or detail, acknowledge the uncertainty rather than guessing.

Format with clear topic headings and bullet points using only information from the chat.

CHAT MESSAGES:
"
  +:+ chatText
  +:+ "

SUMMARY:".

Definition getContinuationPrompt (batchSummary : string) (chatText : string) : string :=
  "Continue analyzing this WhatsApp conversation.

Current summary:
"
  +:+ batchSummary
  +:+ "

CRITICAL INSTRUCTIONS:
- Include ONLY information present in these new messages
- If the new messages contradict the summary, mention both perspectives explicitly
- Use " +:+ dq +:+ "according to the conversation" +:+ dq +:+ " instead of assuming facts
- Maintain uncertainty markers like " +:+ dq +:+ "possibly" +:+ dq +:+ " or " +:+ dq +:+ "appears to be" +:+ dq +:+ " 
- Do not add any details that seem speculative unless directly quoted

Incorporate these additional messages while maintaining the same format and structure:
- Add new topics if they appear
- Expand on previously mentioned topics with new information
- Note any resolution to previously mentioned questions or discussions

ADDITIONAL MESSAGES:
"
  +:+ chatText
  +:+ "

UPDATED SUMMARY:".

Definition getConsolidationPrompt (fullSummary : string) (batchSummary : string) : string :=
  "I have two summaries from different parts of the same WhatsApp conversation. Create a cohesive summary that integrates both.

CRITICAL INSTRUCTIONS:
- Include ONLY information present in either summary
- If the summaries contradict each other, mention both perspectives explicitly
- Use " +:+ dq +:+ "according to the conversation" +:+ dq +:+ " instead of assuming facts
- Maintain uncertainty markers like " +:+ dq +:+ "possibly" +:+ dq +:+ " or " +:+ dq +:+ "appears to be" +:+ dq +:+ " from the original summaries
- Remove any details that seem speculative unless directly quoted

FORMAT REQUIREMENTS:
1. Begin with a high-level overview (2-3 sentences) of CONFIRMED topics only
2. Organize by main discussion topics with clear headings
3. Use bullet points for key points under each topic
4. Highlight any decisions made or action items
5. Maintain chronological flow where relevant

FIRST SUMMARY:
"
  +:+ fullSummary
  +:+ "

SECOND SUMMARY:
"
  +:+ batchSummary
  +:+ "

COMBINED SUMMARY:".

Definition getRefinementPrompt (fullSummary : string) : string :=
  "You're creating a final executive summary of a WhatsApp group conversation.

CRITICAL INSTRUCTIONS:
- Do NOT introduce new information not present in the draft summary
- Maintain all uncertainty markers (like " +:+ dq +:+ "possibly" +:+ dq +:+ " or " +:+ dq +:+ "appears" +:+ dq +:+ ")
- Keep all contradictory perspectives mentioned in the original
- Clearly separate facts from opinions in the conversation

Please refine the following summary into a professional, well-organized report format with:

1. OVERVIEW: A brief introduction and high-level summary (1-2 paragraphs)
2. KEY TOPICS: Main discussion areas with bullet points for important details
3. DECISIONS & ACTION ITEMS: Clear list of any decisions made and actions assigned (if any)
4. NOTABLE MENTIONS: Any important links, events, or references shared in the chat

Keep the tone professional and focus on clarity and readability.

DRAFT SUMMARY:
"
  +:+ fullSummary
  +:+ "

REFINED SUMMARY:".

Definition getSummarizationSystemPrompt : string :=
  "You are an expert analyst who creates clear, structured summaries of group conversations. ONLY include information explicitly stated in the messages. Do not add any information not directly present in the input.".

Definition getConsolidationSystemPrompt : string :=
  "You are an expert analyst who creates clear, structured summaries of group conversations. Only include information explicitly stated in the summaries.".

Definition getRefinementSystemPrompt : string :=
  "You are an expert analyst who creates clear, structured executive summaries. Only include information explicitly stated in the original summary.".

(** ** The effects of the pipeline

    A computation of the pipeline reads the exchange so far and returns its
    outcome with the events it added, oldest first. *)

Definition M (A : Type) : Type := list Event → Outcome A * list Event.

Global Instance M_ret : MRet M := fun _ a _ => (Ok a, []).
Global Instance M_bind : MBind M := fun _ _ k m h =>
  match m h with
  | (Ok a, t1) => let '(r, t2) := k a (h ++ t1) in (r, t1 ++ t2)
  | (Throw e, t1) => (Throw e, t1)
  end.

Definition BATCH_SIZE : nat := 2.

Definition fallbackMessage : string :=
  "Failed to generate summary. Please check if LMStudio is running locally on port 1234 or if input is too large for model context.".

Definition truncationMarker : string := "... [message truncated due to length]".

Record ChunkerState : Type := {
  chunks : list (list string);
  currentChunk : list string;
  currentTokenCount : nat
}.

(** ** Sample environments and inputs, for the examples at the end *)

(** One token per code unit. *)
Definition charEncode (s : string) : list N :=
  N_of_ascii <$> list_ascii_of_string s.

(** One token per ASCII code unit and three per code unit beyond, the way
    a byte-level vocabulary falls back to the bytes of a rare character. *)
Definition wideEncode (s : string) : list N :=
  c ← list_ascii_of_string s;
  if bool_decide (N_of_ascii c < 128)%N then [N_of_ascii c]
  else [N_of_ascii c; N_of_ascii c; N_of_ascii c].

Definition sampleClock : string → option (nat * nat) := fun _ => Some (9, 5).

Definition sampleISO : Z → string := fun _ => "2024-01-01T09:05:00.000Z".

Definition textMessage (who text : string) : Message := {|
  timestamp := Some "2024-01-01T09:05:00.000Z";
  from_ := Some "120363@g.us";
  author := Some who;
  body := Some text;
  hasMedia := Some false;
  fromMe := Some false;
  quotedMsg := None
|}.

(** A server that gives the same answer to every request. *)
Definition constLLM (r : Response) : LLM := fun _ _ => r.

(** A server that answers [s] except to request number [k] (from 0), which
    it fails. *)
Definition failingAt (k : nat) (s : string) : LLM := fun h _ =>
  if decide (length h = k) then Rejected else Completion s.

(** A chat of 21 text messages of 186 characters each. *)
Definition longChat : list Message :=
  replicate 21 (textMessage "alice" (repeatChar 186 "a")).

(** A message with no text, and one with an attachment. *)
Definition blankMessage : Message := textMessage "bob" "  ".

Definition mediaMessage : Message := {|
  timestamp := Some "2024-01-01T09:05:00.000Z";
  from_ := Some "120363@g.us";
  author := Some "carol";
  body := Some "see the picture";
  hasMedia := Some true;
  fromMe := Some false;
  quotedMsg := None
|}.

(** A reply whose quoted message has no body. *)
Definition brokenReply : Message := {|
  timestamp := Some "2024-01-01T09:05:00.000Z";
  from_ := Some "120363@g.us";
  author := Some "dave";
  body := Some "hi";
  hasMedia := Some false;
  fromMe := Some false;
  quotedMsg := Some {| q_author := Some "bob"; q_body := None |}
|}.


Definition rawReply : RawMessage := {|
  raw_timestamp := Some 1704099900%Z;
  raw_from := Some "120363@g.us";
  raw_author := Some "491700000000@c.us";
  raw_body := Some "yes";
  raw_hasMedia := Some false;
  raw_fromMe := Some false;
  _data := Some {| notifyName := Some "Erin";
                   data_quotedMsg := Some {| rq_notifyName := None;
                                             rq_body := None |} |}
|}.


Definition wideAuthorMessage : Message :=
  textMessage (repeatChar 1000 "233") "hi".

(** The configuration with [MAX_COMPLETION_TOKENS=3000]. *)
Definition roomyConfig : Config := {|
  apiUrl := apiUrl defaultConfig;
  maxContextForMessages := maxContextForMessages defaultConfig;
  maxCompletionTokens := 3000;
  temperature := temperature defaultConfig
|}.


(** A chat of two messages. *)
Definition shortChat : list Message :=
  [textMessage "alice" "hi"; textMessage "bob" "hello"].

(** Path functions for file names without a directory part, and a parser
    that knows two file contents. *)
Definition sampleJoin (dir name : string) : string :=
  if decide (dir = ".") then name else dir +:+ "/" +:+ name.

Definition sampleBasename (path ext : string) : string :=
  let n := String.length path - String.length ext in
  if decide (substring n (String.length ext) path = ext) then substring 0 n path
  else path.

Definition sampleDirname : string → string := fun _ => ".".

Definition sampleParse (fileContent : string) : option (list Message) :=
  if decide (fileContent = "[]") then Some []
  else if decide (fileContent = "[chat]") then Some shortChat
  else None.

Definition sampleStringify (messages : list Message) : string :=
  match messages with
  | [] => "[]"
  | _ :: _ => "[chat]"
  end.
(** ** The token estimate of the earlier version

    Before the tokenizer module, [index.js] counted tokens by the length of
    the text; its chunker and its split pass are those of the current
    version with this count in place of the encoder's. *)

(** [Math.ceil(text.length / 3)], and 0 for the empty text. *)
Definition estimateTokenCount (text : string) : nat :=
  if decide (text = "") then 0 else (String.length text + 2) / 3.

(** An encoder that yields as many tokens as the estimate. *)
Definition estimateEncode (text : string) : list N :=
  replicate (estimateTokenCount text) 0%N.

(** ** The message counters of the event handler ([src/events.js])

    [messageCounters] is an object used as a map from chat identifiers to
    counts.  The handler updates it before its first suspension point, so
    the update of one event is never interleaved with that of another.
    The threshold is an integer: a setting that [parseInt] cannot read is
    outside the model. *)



(** ** Files and the failures of the command handlers

    The regular files of the disk are a map from paths to contents.
    Directories are not part of the model: a write is taken to succeed. *)

Inductive HandlerError : Type :=
| FileNotFound (filePath : string)   (* [new Error('File not found: ...')] *)
| SyntaxError                        (* thrown by [JSON.parse] *)
| Uncaught (e : Exn).                (* an exception of the language *)

Inductive Result (A : Type) : Type :=
| Done (a : A)
| Failed (e : HandlerError).
Arguments Done {A} a.
Arguments Failed {A} e.

(** A character that [/[^a-z0-9]/gi] leaves alone: an ASCII letter or
    digit. *)
Definition isAlphaNumeric (c : ascii) : bool :=
  let n := nat_of_ascii c in
  bool_decide (48 ≤ n ≤ 57) || bool_decide (65 ≤ n ≤ 90) || bool_decide (97 ≤ n ≤ 122).

(** [chatId.replace(/[^a-z0-9]/gi, '-')] *)
Fixpoint replaceNonAlphaNumeric (chatId : string) : string :=
  match chatId with
  | EmptyString => EmptyString
  | String c rest =>
      String (if isAlphaNumeric c then c else "-"%char) (replaceNonAlphaNumeric rest)
  end.

(** The characters of a string. *)
Fixpoint characters (s : string) : list ascii :=
  match s with
  | EmptyString => []
  | String c rest => c :: characters rest
  end.

Section Summarizer.

(** [encoder.encode] of tiktoken. *)
Variable encode : string → list N.

(** [new Date(ts)] read by [getHours] and [getMinutes], [None] when the
    date is invalid (both getters then return NaN). *)
Variable localTime : string → option (nat * nat).

(** [new Date(ms).toISOString()] on a valid time value. *)
Variable toISOString : Z → string.

Variable config : Config.
Variable llm : LLM.

(** *** [src/lib/formatting.js] *)

Definition formatMessageCompact (msg : Message) : Outcome (option string) :=
  match body msg with
  | None => Ok None
  | Some b =>
      if decide (b = "") then Ok None
      else if decide (trim b = "") then Ok None
      else if truthy (hasMedia msg) then Ok None
      else
        let date := match timestamp msg with
                    | Some ts => localTime ts
                    | None => None
                    end in
        let timeStr := showNumber (fst <$> date) +:+ ":"
                       +:+ padStart 2 "0" (showNumber (snd <$> date)) in
        let maxMsgLength := 200 in
        let body_ := if decide (maxMsgLength < String.length b)
                     then substring0 maxMsgLength b +:+ "..."
                     else b in
        let author_ := match author msg with
                       | Some a => if includesAt a then Some (beforeAt a) else Some a
                       | None => None
                       end in
        replyContext ←
          match quotedMsg msg with
          | None => Ok ""
          | Some q =>
              match q_body q with
              | None => Throw TypeError
              | Some qb =>
                  let quotedPreview := if decide (60 < String.length qb)
                                       then substring0 60 qb +:+ "..."
                                       else qb in
                  Ok (" [replying to " +:+ showField (q_author q) +:+ ": "
                      +:+ dq +:+ quotedPreview +:+ dq +:+ "]")
              end
          end;
        Ok (Some ("[" +:+ timeStr +:+ "] " +:+ showField author_ +:+ ": "
                  +:+ body_ +:+ replyContext))
  end.

(** A time value is valid up to 8.64e15 milliseconds from the epoch. *)
Definition validTime (ms : Z) : bool :=
  bool_decide (- 8640000000000000 ≤ ms ≤ 8640000000000000)%Z.

Definition formatMessage (msg : RawMessage) (isFormatted : bool)
  : Outcome (RawMessage + Message) :=
  if isFormatted then Ok (inl msg)
  else
    let quotedInfo :=
      match _data msg with
      | Some d =>
          match data_quotedMsg d with
          | Some q => Some {| q_author := Some (orElse (rq_notifyName q) "Unknown");
                              q_body := Some (orElse (rq_body q) "") |}
          | None => None
          end
      | None => None
      end in
    iso ← match raw_timestamp msg with
          | Some t => if validTime (t * 1000) then Ok (toISOString (t * 1000))
                      else Throw RangeError
          | None => Throw RangeError
          end;
    name ← (if truthy (raw_fromMe msg) then Ok "You"
            else match _data msg with
                 | Some d => Ok (orElse (notifyName d) (orElse (raw_author msg) "Unknown"))
                 | None => Throw TypeError
                 end);
    Ok (inr {| timestamp := Some iso;
               from_ := raw_from msg;
               author := Some name;
               body := raw_body msg;
               hasMedia := raw_hasMedia msg;
               fromMe := raw_fromMe msg;
               quotedMsg := quotedInfo |}).

(** *** [src/lib/tokenizer.js] *)

Definition countTokens (text : string) : nat :=
  if decide (text = "") then 0 else length (encode text).

Definition maxChunkTokens : Z := Z.min 2000 (maxContextForMessages config - 500).

(** The safeguard's replacement of a very large line.  [maxChunkTokens] is
    an integer, so [Math.floor(maxChunkTokens * 0.5)] is its half rounded
    down, and a negative length reads as zero. *)
Definition truncateFurther (formattedMsg : string) : string :=
  substring0 (Z.to_nat (maxChunkTokens / 2)) formattedMsg +:+ truncationMarker.

(** [msgTokens > maxChunkTokens * 0.75], on integers. *)
Definition veryLarge (msgTokens : nat) : bool :=
  bool_decide (3 * maxChunkTokens < 4 * Z.of_nat msgTokens)%Z.

(** What the chunker stores for a formatted line: the line itself, or its
    replacement when the line is very large. *)
Definition stored (formattedMsg : string) : string :=
  if veryLarge (countTokens formattedMsg) then truncateFurther formattedMsg
  else formattedMsg.

(** One iteration of the loop over the formatted messages. *)
Definition chunkerStep (st : ChunkerState) (formattedMsg : string) : ChunkerState :=
  let msgTokens := countTokens formattedMsg in
  let st1 :=
    if bool_decide (maxChunkTokens < Z.of_nat (currentTokenCount st + msgTokens))%Z
       && bool_decide (0 < length (currentChunk st))
    then {| chunks := chunks st ++ [currentChunk st];
            currentChunk := [];
            currentTokenCount := 0 |}
    else st in
  let st2 := {| chunks := chunks st1;
                currentChunk := currentChunk st1 ++ [formattedMsg];
                currentTokenCount := currentTokenCount st1 + msgTokens |} in
  if veryLarge msgTokens then
    let replaced := <[length (currentChunk st2) - 1 := truncateFurther formattedMsg]>
                      (currentChunk st2) in
    {| chunks := chunks st2;
       currentChunk := replaced;
       currentTokenCount := foldl (fun sum msg => sum + countTokens msg) 0 replaced |}
  else st2.

Definition createTokenBasedChunks {A : Type} (messages : list A)
    (formatter : A → Outcome (option string)) : Outcome (list (list string)) :=
  formatted ← mapOutcome formatter messages;
  let formattedMessages := omap id formatted in
  let st := foldl chunkerStep
              {| chunks := []; currentChunk := []; currentTokenCount := 0 |}
              formattedMessages in
  Ok (if bool_decide (0 < length (currentChunk st))
      then chunks st ++ [currentChunk st]
      else chunks st).

(** *** [src/services/llm.js] *)

(** The first loop of [summarizeWithLLM]: the chunk at index [i] is split in
    place when it counts more than 2000 tokens and the same index is looked
    at again, otherwise the index moves on.  [fuel] bounds the number of
    iterations; [None] is a loop still running when the fuel is spent. *)
Fixpoint splitLoop (fuel : nat) (messageChunks : list (list string)) (i : nat)
  : option (list (list string)) :=
  match fuel with
  | 0 => None
  | S fuel' =>
      match messageChunks !! i with
      | None => Some messageChunks
      | Some chunk =>
          let chatText := join nl chunk in
          let totalTokens := countTokens chatText in
          if decide (2000 < totalTokens) then
            let midpoint := length chunk / 2 in
            let firstHalf := take midpoint chunk in
            let secondHalf := drop midpoint chunk in
            splitLoop fuel'
              (take i messageChunks ++ [firstHalf; secondHalf] ++ drop (S i) messageChunks) i
          else splitLoop fuel' messageChunks (S i)
      end
  end.

Definition axiosPost (req : Request) : M Response := fun h =>
  let response := llm h req in
  (match response with
   | Rejected => Throw RequestFailed
   | _ => Ok response
   end,
   [{| ev_request := req; ev_response := response |}]).

(** [response.data.choices[0].message.content] *)
Definition messageContent (response : Response) : M string := fun _ =>
  (match response with
   | Completion content => Ok content
   | _ => Throw TypeError
   end, []).

Definition request (systemPrompt prompt : string) : Request :=
  {| url := apiUrl config;
     model := "local-model";
     system := systemPrompt;
     user := prompt;
     rq_temperature := temperature config;
     max_tokens := maxCompletionTokens config |}.

Definition complete (systemPrompt prompt : string) : M string :=
  response ← axiosPost (request systemPrompt prompt);
  messageContent response.

(** The prompt of the chunk at index [i] of a batch. *)
Definition chunkPrompt (i : nat) (batchSummary chatText : string) : string :=
  if bool_decide (i = 0) && bool_decide (batchSummary = "")
  then getInitialPrompt chatText
  else getContinuationPrompt batchSummary chatText.

(** The loop over the chunks of one batch, from index [i] on. *)
Fixpoint chunkLoop (i : nat) (rest : list (list string)) (batchSummary : string)
  : M string :=
  match rest with
  | [] => mret batchSummary
  | chunk :: rest' =>
      let chatText := join nl chunk in
      let prompt := chunkPrompt i batchSummary chatText in
      let promptTokens := countTokens prompt in
      if decide (3800 < promptTokens) then mret batchSummary
      else
        chunkSummary ← complete getSummarizationSystemPrompt prompt;
        chunkLoop (S i) rest'
          (if decide (i = 0) then chunkSummary
           else batchSummary +:+ nl +:+ nl +:+ chunkSummary)
  end.

(** [Math.ceil(messageChunks.length / BATCH_SIZE)] *)
Definition batchCount (messageChunks : list (list string)) : nat :=
  (length messageChunks + BATCH_SIZE - 1) / BATCH_SIZE.

Definition currentBatch (messageChunks : list (list string)) (batchIndex : nat)
  : list (list string) :=
  let startIdx := batchIndex * BATCH_SIZE in
  let endIdx := (startIdx + BATCH_SIZE) `min` length messageChunks in
  take (endIdx - startIdx) (drop startIdx messageChunks).

Definition consolidate (fullSummary batchSummary : string) : M string :=
  if decide (fullSummary = "") then mret batchSummary
  else complete getConsolidationSystemPrompt
         (getConsolidationPrompt fullSummary batchSummary).

(** The loop over the batches, with [remaining] iterations to go. *)
Fixpoint batchLoop (messageChunks : list (list string)) (remaining batchIndex : nat)
    (fullSummary : string) : M string :=
  match remaining with
  | 0 => mret fullSummary
  | S remaining' =>
      batchSummary ← chunkLoop 0 (currentBatch messageChunks batchIndex) "";
      fullSummary' ← consolidate fullSummary batchSummary;
      batchLoop messageChunks remaining' (S batchIndex) fullSummary'
  end.

Definition refine (messageChunks : list (list string)) (fullSummary : string)
  : M string :=
  if decide (BATCH_SIZE < length messageChunks)
  then complete getRefinementSystemPrompt (getRefinementPrompt fullSummary)
  else mret fullSummary.

(** Everything after the split pass, inside the [try]. *)
Definition summarizeChunks (messageChunks : list (list string)) : M string :=
  fullSummary ← batchLoop messageChunks (batchCount messageChunks) 0 "";
  refine messageChunks fullSummary.

(** The [try] block: [None] when the split pass does not finish within
    [fuel] iterations. *)
Definition tryBlock (fuel : nat) (messages : list Message)
  : option (Outcome string * list Event) :=
  match createTokenBasedChunks messages formatMessageCompact with
  | Throw e => Some (Throw e, [])
  | Ok messageChunks =>
      match splitLoop fuel messageChunks 0 with
      | None => None
      | Some messageChunks' => Some (summarizeChunks messageChunks' [])
      end
  end.

Definition summarizeWithLLM (fuel : nat) (messages : list Message)
  : option (string * list Event) :=
  match tryBlock fuel messages with
  | None => None
  | Some (Ok fullSummary, trace) => Some (fullSummary, trace)
  | Some (Throw _, trace) => Some (fallbackMessage, trace)
  end.


(** *** [src/lib/storage.js] and [src/commands/handlers.js] *)

Section Storage.

(** [path.join], [path.basename] with an extension and [path.dirname]. *)
Variable pathJoin : string → string → string.
Variable pathBasename : string → string → string.
Variable pathDirname : string → string.

(** [JSON.parse] read as a sequence of messages, [None] when it throws,
    and [JSON.stringify(messages, null, 2)]. *)
Variable parseJSON : string → option (list Message).
Variable stringifyJSON : list Message → string.

(** [config.whatsapp.dataPath], and [Date.now()] at the time of the call. *)
Variable dataPath : string.
Variable now : N.

Definition messagesFileName (chatId : string) : string :=
  "chat-" +:+ replaceNonAlphaNumeric chatId +:+ "-" +:+ pretty now +:+ ".json".

Definition saveMessagesToFile (files : gmap string string)
    (messages : list Message) (chatId : string) : gmap string string * string :=
  let fileName := messagesFileName chatId in
  let filePath := pathJoin dataPath fileName in
  (<[filePath := stringifyJSON messages]> files, filePath).

Definition saveSummaryToFile (files : gmap string string)
    (summary sourcePath : string) : gmap string string * string :=
  let summaryFileName := pathBasename sourcePath ".json" +:+ "-summary.txt" in
  let summaryPath := pathJoin (pathDirname sourcePath) summaryFileName in
  (<[summaryPath := summary]> files, summaryPath).

Definition loadMessagesFromFile (files : gmap string string) (filePath : string)
  : Result (list Message) :=
  match files !! filePath with
  | None => Failed (FileNotFound filePath)
  | Some fileContent =>
      match parseJSON fileContent with
      | Some messages => Done messages
      | None => Failed SyntaxError
      end
  end.

(** [handleSummarizeFile]: the outcome (the summary and the path of its
    file), the files and the exchange with the server; [None] when the
    split pass does not end within [fuel] iterations.  The log line about
    the period covered reads the time stamp of the first message, which
    throws on an empty sequence. *)
Definition handleSummarizeFile (fuel : nat) (files : gmap string string)
    (fileName : string)
  : option (Result (string * string) * gmap string string * list Event) :=
  match loadMessagesFromFile files fileName with
  | Failed e => Some (Failed e, files, [])
  | Done messages =>
      match messages with
      | [] => Some (Failed (Uncaught TypeError), files, [])
      | _ :: _ =>
          match summarizeWithLLM fuel messages with
          | None => None
          | Some (summary, trace) =>
              let '(files', summaryPath) := saveSummaryToFile files summary fileName in
              Some (Done (summary, summaryPath), files', trace)
          end
      end
  end.

(** [handleSummaryOutput]: the summary is saved when a file name is
    given. *)
Definition handleSummaryOutput (files : gmap string string) (summary : string)
    (fileName : option string) : gmap string string * (string * option string) :=
  match fileName with
  | Some sourcePath =>
      if decide (sourcePath = "") then (files, (summary, None))
      else
        let '(files', summaryPath) := saveSummaryToFile files summary sourcePath in
        (files', (summary, Some summaryPath))
  | None => (files, (summary, None))
  end.

(** The [summarize] branch of [processCommand], for the file name it reads
    from its input: the files and the exchange with the server afterwards.
    An error of the handler is logged and the command ends. *)
Definition summarizeCommand (fuel : nat) (files : gmap string string)
    (fileName : string)
  : option (gmap string string * list Event) :=
  match handleSummarizeFile fuel files fileName with
  | None => None
  | Some (Done (summary, summaryPath), files', trace) =>
      Some ((handleSummaryOutput files' summary (Some summaryPath)).1, trace)
  | Some (Failed _, files', trace) => Some (files', trace)
  end.

End Storage.

(** *** Notions used in the statements *)

(** The lines held by a state of the chunker, closed chunks first. *)
Definition linesOf (st : ChunkerState) : list string :=
  concat (chunks st) ++ currentChunk st.

(** A chunk that the split pass leaves alone. *)
Definition fits (chunk : list string) : Prop :=
  countTokens (join nl chunk) ≤ 2000.

(** The number of iterations that the split pass can spend on a chunk. *)
Definition weight (chunk : list string) : nat :=
  Nat.pred (2 * length chunk) `max` 1.

(** The event of a request with its answer. *)
Definition exchange (systemPrompt prompt : string) (response : Response) : Event :=
  {| ev_request := request systemPrompt prompt; ev_response := response |}.

(** The number of requests of a trace made under a system instruction. *)
Definition callsTo (systemPrompt : string) (trace : list Event) : nat :=
  length (filter (λ e, system (ev_request e) = systemPrompt) trace).

(** A summarization request within the prompt budget. *)
Definition withinBudget (e : Event) : Prop :=
  system (ev_request e) = getSummarizationSystemPrompt →
  countTokens (user (ev_request e)) ≤ 3800.


(** A run in good order: every request but the last was answered with a
    completion, and the run threw exactly when the last one was not. *)
Definition tidy {A : Type} (run : Outcome A * list Event) : Prop :=
  match run.1 with
  | Ok _ => Forall (λ e, isCompletion e = true) run.2
  | Throw _ => ∃ trace e, run.2 = trace ++ [e]
                          ∧ Forall (λ e, isCompletion e = true) trace
                          ∧ isCompletion e = false
  end.

(** The answers of a trace are those of the server, each given to the
    exchange that came before it. *)
Definition recorded (h trace : list Event) : Prop :=
  ∀ i e, trace !! i = Some e →
         ev_response e = llm (h ++ take i trace) (ev_request e).

Record Inv {A : Type} (P : Event → Prop) (m : M A) : Prop := {
  inv_emits : ∀ h, Forall P (m h).2;
  inv_tidy : ∀ h, tidy (m h);
  inv_recorded : ∀ h, recorded h (m h).2
}.

(** The token count of a chunk as the chunker recounts it. *)
Definition recount (chunk : list string) : nat :=
  foldl (λ sum msg, sum + countTokens msg) 0 chunk.

(** The completions received in a trace, oldest first. *)
Definition answers (trace : list Event) : list string :=
  omap (λ e, match ev_response e with
             | Completion content => Some content
             | _ => None
             end) trace.

(** A chunk whose lines add up to at most the chunk budget. *)
Definition withinChunkBudget (chunk : list string) : Prop :=
  (Z.of_nat (recount chunk) ≤ maxChunkTokens)%Z.



(** A chunk whose prompt, at some place of a batch, counts more than the
    budget. *)
Definition overBudget (chunk : list string) : Prop :=
  ∃ i batchSummary, 3800 < countTokens (chunkPrompt i batchSummary (join nl chunk)).

(** A request with the settings of the configuration. *)
Definition configured (e : Event) : Prop :=
  url (ev_request e) = apiUrl config
  ∧ model (ev_request e) = "local-model"
  ∧ rq_temperature (ev_request e) = temperature config
  ∧ max_tokens (ev_request e) = maxCompletionTokens config.

(** A request whose prompt is built with the template that goes with its
    system instruction. *)
Definition paired (e : Event) : Prop :=
  (system (ev_request e) = getSummarizationSystemPrompt
   ∧ ∃ batchSummary chatText,
       user (ev_request e) = getInitialPrompt chatText
       ∨ user (ev_request e) = getContinuationPrompt batchSummary chatText)
  ∨ (system (ev_request e) = getConsolidationSystemPrompt
     ∧ ∃ fullSummary batchSummary,
         fullSummary ≠ ""
         ∧ user (ev_request e) = getConsolidationPrompt fullSummary batchSummary)
  ∨ (system (ev_request e) = getRefinementSystemPrompt
     ∧ ∃ fullSummary, user (ev_request e) = getRefinementPrompt fullSummary).

(** ** Properties of the formatter *)

Lemma trimStart_empty_iff (s : string) :
  trimStart s = "" ↔ whitespaceOnly s = true.
Proof.
  induction s as [|c s IH]; simpl; [done|].
  destruct (isWhiteSpace c); simpl; [exact IH|].
  split; discriminate.
Qed.

Lemma trimEnd_empty_iff (s : string) :
  trimEnd s = "" ↔ whitespaceOnly s = true.
Proof.
  induction s as [|c s IH]; simpl; [done|].
  destruct (trimEnd s) as [|c' t] eqn:Ht.
  - destruct (isWhiteSpace c); simpl.
    + split; [intros _; by apply IH|done].
    + split; discriminate.
  - split; [discriminate|].
    intros [_ Hs]%andb_prop. apply IH in Hs. discriminate.
Qed.

Lemma whitespaceOnly_trimStart (s : string) :
  whitespaceOnly (trimStart s) = whitespaceOnly s.
Proof.
  induction s as [|c s IH]; simpl; [done|].
  destruct (isWhiteSpace c) eqn:Hc; simpl; [exact IH|].
  by rewrite Hc.
Qed.

(** [s.trim() === ''] holds exactly of the white-space strings. *)
Lemma trim_empty_iff (s : string) :
  trim s = "" ↔ whitespaceOnly s = true.
Proof.
  unfold trim. by rewrite trimEnd_empty_iff, whitespaceOnly_trimStart.
Qed.

Lemma formatMessageCompact_filters (msg : Message) :
  unsummarizable msg = true → formatMessageCompact msg = Ok None.
Proof.
  unfold unsummarizable, formatMessageCompact.
  destruct (body msg) as [b|]; [|done].
  intros [Hb|Hm]%orb_prop.
  - destruct (decide (b = "")); [done|].
    destruct (decide (trim b = "")) as [|Hn]; [done|].
    by apply trim_empty_iff in Hb.
  - repeat case_decide; try done; by rewrite Hm.
Qed.

Lemma formatMessageCompact_formats (msg : Message) :
  unsummarizable msg = false → quotedBodyPresent msg = true →
  ∃ line, formatMessageCompact msg = Ok (Some line).
Proof.
  unfold unsummarizable, quotedBodyPresent, formatMessageCompact.
  destruct (body msg) as [b|]; [|done].
  intros [Hb Hm]%orb_false_elim Hq.
  destruct (decide (b = "")) as [->|_]; [done|].
  destruct (decide (trim b = "")) as [Ht|_].
  { apply trim_empty_iff in Ht. congruence. }
  rewrite Hm.
  destruct (quotedMsg msg) as [q|]; [|by eexists].
  apply bool_decide_eq_true in Hq as [qb Hq]. rewrite Hq. by eexists.
Qed.



(** What [formatMessage] builds always has a time stamp, an author, and a
    quoted message with an author and a body when there is one. *)
Lemma formatMessage_shape (raw : RawMessage) (m : Message) :
  formatMessage raw false = Ok (inr m) →
  is_Some (timestamp m) ∧ is_Some (author m) ∧ quotedBodyPresent m = true.
Proof.
  unfold formatMessage, quotedBodyPresent. simpl.
  destruct (raw_timestamp raw) as [t|]; [|done].
  destruct (validTime (t * 1000)); [|done]. simpl.
  destruct (truthy (raw_fromMe raw)); simpl.
  - intros [= <-]; simpl. split_and!; [by eexists..|].
    destruct (_data raw) as [d|]; [|done]. by destruct (data_quotedMsg d).
  - destruct (_data raw) as [d|]; [|done]. simpl.
    intros [= <-]; simpl. split_and!; [by eexists..|].
    by destruct (data_quotedMsg d).
Qed.



(** ** Properties of the chunker *)

Lemma chunkerStep_lines (st : ChunkerState) (formattedMsg : string) :
  linesOf (chunkerStep st formattedMsg) = linesOf st ++ [stored formattedMsg].
Proof.
  unfold chunkerStep, linesOf, stored.
  set (st1 := if _ && _ then _ else st).
  assert (Hst1 : concat (chunks st1) ++ currentChunk st1
                 = concat (chunks st) ++ currentChunk st).
  { subst st1. destruct (_ && _); [|done]. simpl.
    rewrite concat_app. simpl. by rewrite !app_nil_r. }
  destruct (veryLarge _); simpl.
  - rewrite length_app. simpl.
    replace (length (currentChunk st1) + 1 - 1) with (length (currentChunk st1) + 0) by lia.
    rewrite insert_app_r. simpl. by rewrite app_assoc, Hst1.
  - by rewrite app_assoc, Hst1.
Qed.


Lemma chunkerLoop_lines (ls : list string) (st : ChunkerState) :
  linesOf (foldl chunkerStep st ls) = linesOf st ++ (stored <$> ls).
Proof.
  revert st. induction ls as [|l ls IH]; intros st; simpl.
  - by rewrite app_nil_r.
  - rewrite IH, chunkerStep_lines. by rewrite <- app_assoc.
Qed.




(** ** Properties of the split pass *)

Lemma countTokens_empty : countTokens "" = 0.
Proof. done. Qed.

Lemma splitLoop_unfold (fuel : nat) (messageChunks : list (list string)) (i : nat) :
  splitLoop (S fuel) messageChunks i =
  match messageChunks !! i with
  | None => Some messageChunks
  | Some chunk =>
      if decide (2000 < countTokens (join nl chunk)) then
        splitLoop fuel
          (take i messageChunks
           ++ [take (length chunk / 2) chunk; drop (length chunk / 2) chunk]
           ++ drop (S i) messageChunks) i
      else splitLoop fuel messageChunks (S i)
  end.
Proof. done. Qed.

(** Every chunk that the pass has gone over fits, so all do at the end. *)
Lemma splitLoop_bound (fuel : nat) (messageChunks : list (list string)) (i : nat)
    (out : list (list string)) :
  splitLoop fuel messageChunks i = Some out →
  Forall fits (take i messageChunks) → Forall fits out.
Proof.
  revert messageChunks i.
  induction fuel as [|fuel IH]; intros cs i; [done|].
  rewrite splitLoop_unfold. destruct (cs !! i) as [chunk|] eqn:Hi.
  - pose proof (lookup_lt_Some _ _ _ Hi) as Hlt.
    case_decide as Hbig; intros Hout Hdone.
    + apply (IH _ _ Hout). rewrite take_app_length'; [done|].
      rewrite length_take. lia.
    + apply (IH _ _ Hout). rewrite (take_S_r _ _ _ Hi).
      apply Forall_app. split; [done|]. apply Forall_singleton.
      unfold fits. lia.
  - intros [= <-] Hdone. apply lookup_ge_None in Hi.
    by rewrite take_ge in Hdone.
Qed.

(** The pass moves chunk boundaries only. *)
Lemma splitLoop_concat (fuel : nat) (messageChunks : list (list string)) (i : nat)
    (out : list (list string)) :
  splitLoop fuel messageChunks i = Some out → concat out = concat messageChunks.
Proof.
  revert messageChunks i.
  induction fuel as [|fuel IH]; intros cs i; [done|].
  rewrite splitLoop_unfold. destruct (cs !! i) as [chunk|] eqn:Hi.
  - case_decide; intros Hout; apply IH in Hout; rewrite Hout; [|done].
    pose proof (f_equal (@concat string) (take_drop_middle cs i chunk Hi)) as <-.
    rewrite !concat_app, !concat_cons.
    by rewrite concat_nil, app_nil_r, take_drop.
  - by intros [= <-].
Qed.

(** A chunk of one line that counts more than 2000 tokens is split into
    an empty chunk and itself, over and over: the pass never gets past
    it. *)
Lemma splitLoop_diverges (fuel : nat) (messageChunks : list (list string))
    (i j : nat) (line : string) :
  i ≤ j → messageChunks !! j = Some [line] → 2000 < countTokens line →
  splitLoop fuel messageChunks i = None.
Proof.
  revert messageChunks i j.
  induction fuel as [|fuel IH]; intros cs i j Hij Hj Hbig; [done|].
  rewrite splitLoop_unfold.
  pose proof (lookup_lt_Some _ _ _ Hj) as Hlt.
  destruct (cs !! i) as [chunk|] eqn:Hi.
  2: { apply lookup_ge_None in Hi. lia. }
  case_decide as Hsplit.
  - apply (IH _ i (S j)); [lia| |done].
    rewrite lookup_app_r; rewrite length_take; [|lia].
    replace (i `min` length cs) with i by lia.
    destruct (decide (i = j)) as [->|Hne].
    + rewrite Hj in Hi. injection Hi as <-.
      replace (S j - j) with 1 by lia. done.
    + replace (S j - i) with (S (S (j - i - 1))) by lia. simpl.
      rewrite lookup_drop. rewrite <- Hj. f_equal. lia.
  - apply (IH _ (S i) j); [|done..].
    destruct (decide (i = j)) as [->|]; [|lia].
    rewrite Hj in Hi. injection Hi as <-. simpl in Hsplit. lia.
Qed.

Lemma weight_halves (chunk : list string) :
  2 ≤ length chunk →
  weight (take (length chunk / 2) chunk) + weight (drop (length chunk / 2) chunk)
  < weight chunk.
Proof.
  intros Hlen. unfold weight. rewrite length_take, length_drop.
  pose proof (Nat.div_mod_eq (length chunk) 2) as Hdiv.
  pose proof (Nat.mod_upper_bound (length chunk) 2) as Hmod.
  lia.
Qed.

(** When no line counts more than 2000 tokens the pass ends: a chunk that
    is split has two lines or more, and its halves are shorter. *)
Lemma splitLoop_terminates (messageChunks : list (list string)) (i : nat) :
  Forall (Forall (λ line, countTokens line ≤ 2000)) messageChunks →
  ∃ fuel out, splitLoop fuel messageChunks i = Some out.
Proof.
  remember (S (sum_list (weight <$> drop i messageChunks))) as n eqn:Hn.
  assert (Hlt : sum_list (weight <$> drop i messageChunks) < n) by lia.
  clear Hn. revert messageChunks i Hlt.
  induction n as [|n IH]; intros cs i Hlt Hlines; [lia|].
  destruct (cs !! i) as [chunk|] eqn:Hi.
  2: { exists 1, cs. by rewrite splitLoop_unfold, Hi. }
  pose proof (lookup_lt_Some _ _ _ Hi) as Hlen.
  rewrite (drop_S _ _ _ Hi), fmap_cons in Hlt. simpl in Hlt.
  assert (Hchunk : Forall (λ line, countTokens line ≤ 2000) chunk).
  { by eapply Forall_lookup_1 in Hlines. }
  destruct (decide (2000 < countTokens (join nl chunk))) as [Hbig|Hfit].
  - set (cs' := take i cs
                ++ [take (length chunk / 2) chunk; drop (length chunk / 2) chunk]
                ++ drop (S i) cs).
    assert (Htwo : 2 ≤ length chunk).
    { destruct chunk as [|l [|l' chunk]]; cbn [join length] in *; [|..|lia].
      - rewrite countTokens_empty in Hbig. lia.
      - apply Forall_inv in Hchunk. lia. }
    destruct (IH cs' i) as (fuel & out & Hrun).
    + subst cs'. rewrite drop_app_length'; [|rewrite length_take; lia].
      pose proof (weight_halves chunk Htwo) as Hw.
      cbn [app]. rewrite !fmap_cons. cbn [sum_list_with id] in *. lia.
    + subst cs'.
      repeat first [apply Forall_app; split | apply Forall_cons; split
                   | apply Forall_nil_2];
        auto using Forall_take, Forall_drop.
    + exists (S fuel), out. rewrite splitLoop_unfold, Hi.
      by rewrite decide_True.
  - destruct (IH cs (S i)) as (fuel & out & Hrun); [|done|].
    + assert (1 ≤ weight chunk) by (unfold weight; lia). lia.
    + exists (S fuel), out. rewrite splitLoop_unfold, Hi.
      by rewrite decide_False.
Qed.

(** C2. After the split pass every chunk counts at most 2000 tokens once
    its lines are joined with a newline, a chunk of exactly one line being
    the only one allowed to count more (none does: see [splitLoop_bound]). *)
Theorem chunks_fit_after_split_pass (fuel : nat)
    (messageChunks out : list (list string)) :
  splitLoop fuel messageChunks 0 = Some out →
  Forall (λ chunk, countTokens (join nl chunk) ≤ 2000 ∨ length chunk = 1) out.
Proof.
  intros Hout. apply (splitLoop_bound _ _ _ _) in Hout; [|by rewrite take_0].
  eapply Forall_impl; [exact Hout|]. intros chunk Hfit. by left.
Qed.

(** ** Runs of the pipeline *)

Lemma run_ret {A : Type} (a : A) (h : list Event) : (mret a : M A) h = (Ok a, []).
Proof. done. Qed.

Lemma run_bind {A B : Type} (m : M A) (k : A → M B) (h : list Event) :
  (m ≫= k) h =
  match m h with
  | (Ok a, t1) => let '(r, t2) := k a (h ++ t1) in (r, t1 ++ t2)
  | (Throw e, t1) => (Throw e, t1)
  end.
Proof. done. Qed.

Lemma run_complete (systemPrompt prompt : string) (h : list Event) :
  complete systemPrompt prompt h =
  (match llm h (request systemPrompt prompt) with
   | Completion content => Ok content
   | Malformed => Throw TypeError
   | Rejected => Throw RequestFailed
   end,
   [exchange systemPrompt prompt (llm h (request systemPrompt prompt))]).
Proof.
  unfold complete, exchange. rewrite run_bind. unfold axiosPost, messageContent.
  by destruct (llm h _).
Qed.

Lemma bind_Ok_inv {A B : Type} (m : M A) (k : A → M B) (h : list Event)
    (b : B) (trace : list Event) :
  (m ≫= k) h = (Ok b, trace) →
  ∃ a t1 t2, m h = (Ok a, t1) ∧ k a (h ++ t1) = (Ok b, t2) ∧ trace = t1 ++ t2.
Proof.
  rewrite run_bind. destruct (m h) as [[a|e] t1]; [|done].
  destruct (k a (h ++ t1)) as [r t2] eqn:Hk. intros [= -> <-]. by exists a, t1, t2.
Qed.

Lemma complete_Ok_inv (systemPrompt prompt : string) (h : list Event)
    (content : string) (trace : list Event) :
  complete systemPrompt prompt h = (Ok content, trace) →
  trace = [exchange systemPrompt prompt (Completion content)].
Proof.
  rewrite run_complete. destruct (llm h _); intros [= <- <-]; done.
Qed.

Lemma chunkLoop_nil (i : nat) (batchSummary : string) :
  chunkLoop i [] batchSummary = mret batchSummary.
Proof. done. Qed.

Lemma chunkLoop_cons (i : nat) (chunk : list string) (rest : list (list string))
    (batchSummary : string) :
  chunkLoop i (chunk :: rest) batchSummary =
  if decide (3800 < countTokens (chunkPrompt i batchSummary (join nl chunk)))
  then mret batchSummary
  else
    chunkSummary ← complete getSummarizationSystemPrompt
                      (chunkPrompt i batchSummary (join nl chunk));
    chunkLoop (S i) rest
      (if decide (i = 0) then chunkSummary
       else batchSummary +:+ nl +:+ nl +:+ chunkSummary).
Proof. done. Qed.

Lemma batchLoop_0 (messageChunks : list (list string)) (batchIndex : nat)
    (fullSummary : string) :
  batchLoop messageChunks 0 batchIndex fullSummary = mret fullSummary.
Proof. done. Qed.

Lemma batchLoop_S (messageChunks : list (list string)) (remaining batchIndex : nat)
    (fullSummary : string) :
  batchLoop messageChunks (S remaining) batchIndex fullSummary =
  (batchSummary ← chunkLoop 0 (currentBatch messageChunks batchIndex) "";
   fullSummary' ← consolidate fullSummary batchSummary;
   batchLoop messageChunks remaining (S batchIndex) fullSummary').
Proof. done. Qed.

(** *** The invariant of the monad *)

Lemma Inv_ret {A : Type} (P : Event → Prop) (a : A) : Inv P (mret a).
Proof.
  split; intros h; rewrite ?run_ret; simpl.
  - constructor.
  - unfold tidy. simpl. constructor.
  - intros i e Hi. by rewrite lookup_nil in Hi.
Qed.

Lemma tidy_app {A : Type} (t1 : list Event) (r : Outcome A) (t2 : list Event) :
  Forall (λ e, isCompletion e = true) t1 → tidy (r, t2) → tidy (r, t1 ++ t2).
Proof.
  unfold tidy. simpl. intros Ht1. destruct r as [a|x].
  - intros Ht2. by apply Forall_app.
  - intros (trace & e & -> & Htrace & He). exists (t1 ++ trace), e.
    split_and!; [by rewrite app_assoc| by apply Forall_app |done].
Qed.

Lemma recorded_app (h t1 t2 : list Event) :
  recorded h t1 → recorded (h ++ t1) t2 → recorded h (t1 ++ t2).
Proof.
  intros H1 H2 i e Hi. destruct (decide (i < length t1)) as [Hlt|Hge].
  - rewrite lookup_app_l in Hi by done.
    rewrite take_app_le by lia. by apply H1.
  - rewrite lookup_app_r in Hi by lia.
    rewrite take_app_ge by lia. rewrite app_assoc. by apply H2.
Qed.

Lemma Inv_bind {A B : Type} (P : Event → Prop) (m : M A) (k : A → M B) :
  Inv P m → (∀ a, Inv P (k a)) → Inv P (m ≫= k).
Proof.
  intros [Hm1 Hm2 Hm3] Hk.
  split; intros h; rewrite run_bind;
    specialize (Hm1 h); specialize (Hm2 h); specialize (Hm3 h);
    destruct (m h) as [[a|x] t1]; try done;
    destruct (Hk a) as [Hk1 Hk2 Hk3];
    specialize (Hk1 (h ++ t1)); specialize (Hk2 (h ++ t1)); specialize (Hk3 (h ++ t1));
    destruct (k a (h ++ t1)) as [r t2]; simpl in *.
  - by apply Forall_app.
  - by apply tidy_app.
  - by apply recorded_app.
Qed.

Lemma Inv_complete (P : Event → Prop) (systemPrompt prompt : string) :
  (∀ response, P (exchange systemPrompt prompt response)) →
  Inv P (complete systemPrompt prompt).
Proof.
  intros HP. split; intros h; rewrite run_complete; simpl.
  - by apply Forall_singleton.
  - unfold tidy. simpl. destruct (llm h _) eqn:Hllm.
    + exists [], (exchange systemPrompt prompt Rejected). by split_and!.
    + exists [], (exchange systemPrompt prompt Malformed). by split_and!.
    + by apply Forall_singleton.
  - intros [|i] e; [|done]. intros [= <-]. simpl. by rewrite app_nil_r.
Qed.

(** *** The three kinds of request *)

Section Kinds.

Variable P : Event → Prop.
Hypothesis P_summarize : ∀ prompt response,
  countTokens prompt ≤ 3800 → P (exchange getSummarizationSystemPrompt prompt response).
Hypothesis P_consolidate : ∀ fullSummary batchSummary response,
  fullSummary ≠ "" →
  P (exchange getConsolidationSystemPrompt
       (getConsolidationPrompt fullSummary batchSummary) response).
Hypothesis P_refine : ∀ fullSummary response,
  P (exchange getRefinementSystemPrompt (getRefinementPrompt fullSummary) response).

Lemma Inv_chunkLoop (rest : list (list string)) (i : nat) (batchSummary : string) :
  Inv P (chunkLoop i rest batchSummary).
Proof.
  revert i batchSummary. induction rest as [|chunk rest IH]; intros i bs.
  - rewrite chunkLoop_nil. apply Inv_ret.
  - rewrite chunkLoop_cons. case_decide as Hbig; [apply Inv_ret|].
    apply Inv_bind; [|intros; apply IH].
    apply Inv_complete. intros response. apply P_summarize. lia.
Qed.

Lemma Inv_consolidate (fullSummary batchSummary : string) :
  Inv P (consolidate fullSummary batchSummary).
Proof.
  unfold consolidate. case_decide; [apply Inv_ret|].
  apply Inv_complete. intros response. by apply P_consolidate.
Qed.

Lemma Inv_batchLoop (messageChunks : list (list string)) (remaining batchIndex : nat)
    (fullSummary : string) :
  Inv P (batchLoop messageChunks remaining batchIndex fullSummary).
Proof.
  revert batchIndex fullSummary.
  induction remaining as [|remaining IH]; intros bi fs;
    [rewrite batchLoop_0; apply Inv_ret|].
  rewrite batchLoop_S. apply Inv_bind; [apply Inv_chunkLoop|]. intros bs.
  apply Inv_bind; [apply Inv_consolidate|]. intros fs'. apply IH.
Qed.

Lemma Inv_refine (messageChunks : list (list string)) (fullSummary : string) :
  Inv P (refine messageChunks fullSummary).
Proof.
  unfold refine. case_decide; [|apply Inv_ret].
  apply Inv_complete. intros response. apply P_refine.
Qed.

Lemma Inv_summarizeChunks (messageChunks : list (list string)) :
  Inv P (summarizeChunks messageChunks).
Proof.
  unfold summarizeChunks. apply Inv_bind; [apply Inv_batchLoop|].
  intros fs. apply Inv_refine.
Qed.

End Kinds.

(** *** Counting requests *)

Lemma system_prompts_distinct :
  getSummarizationSystemPrompt ≠ getConsolidationSystemPrompt
  ∧ getSummarizationSystemPrompt ≠ getRefinementSystemPrompt
  ∧ getConsolidationSystemPrompt ≠ getRefinementSystemPrompt.
Proof. split_and!; discriminate. Qed.

Lemma callsTo_app (systemPrompt : string) (t1 t2 : list Event) :
  callsTo systemPrompt (t1 ++ t2) = callsTo systemPrompt t1 + callsTo systemPrompt t2.
Proof. unfold callsTo. by rewrite filter_app, length_app. Qed.

Lemma callsTo_none (systemPrompt : string) (trace : list Event) :
  Forall (λ e, system (ev_request e) ≠ systemPrompt) trace →
  callsTo systemPrompt trace = 0.
Proof.
  unfold callsTo. induction 1 as [|e trace He _ IH]; [done|].
  by rewrite filter_cons_False.
Qed.

Lemma callsTo_exchange (systemPrompt systemPrompt' prompt : string) (response : Response) :
  callsTo systemPrompt [exchange systemPrompt' prompt response]
  = if decide (systemPrompt' = systemPrompt) then 1 else 0.
Proof.
  unfold callsTo. case_decide.
  - by rewrite filter_cons_True.
  - by rewrite filter_cons_False.
Qed.

Lemma callsTo_cons (systemPrompt : string) (e : Event) (trace : list Event) :
  callsTo systemPrompt (e :: trace)
  = (if decide (system (ev_request e) = systemPrompt) then 1 else 0)
    + callsTo systemPrompt trace.
Proof.
  unfold callsTo. case_decide.
  - by rewrite filter_cons_True.
  - by rewrite filter_cons_False.
Qed.

(** The chunk loop makes summarization requests only. *)
Lemma chunkLoop_requests (rest : list (list string)) (i : nat) (batchSummary : string)
    (h : list Event) :
  Forall (λ e, system (ev_request e) = getSummarizationSystemPrompt)
         (chunkLoop i rest batchSummary h).2.
Proof. by apply (Inv_chunkLoop (λ e, system (ev_request e) = _)). Qed.

(** The batch loop makes no refinement request. *)
Lemma batchLoop_requests (messageChunks : list (list string)) (remaining batchIndex : nat)
    (fullSummary : string) (h : list Event) :
  Forall (λ e, system (ev_request e) ≠ getRefinementSystemPrompt)
         (batchLoop messageChunks remaining batchIndex fullSummary h).2.
Proof.
  destruct system_prompts_distinct as (_ & H1 & H2).
  by apply (Inv_batchLoop (λ e, system (ev_request e) ≠ _)).
Qed.

(** *** The [try] block *)

Lemma tryBlock_inv (fuel : nat) (messages : list Message) (r : Outcome string)
    (trace : list Event) :
  tryBlock fuel messages = Some (r, trace) →
  (∃ e, createTokenBasedChunks messages formatMessageCompact = Throw e
        ∧ r = Throw e ∧ trace = [])
  ∨ (∃ messageChunks out,
        createTokenBasedChunks messages formatMessageCompact = Ok messageChunks
        ∧ splitLoop fuel messageChunks 0 = Some out
        ∧ summarizeChunks out [] = (r, trace)).
Proof.
  unfold tryBlock.
  destruct (createTokenBasedChunks messages formatMessageCompact) as [cs|e] eqn:Hc.
  - destruct (splitLoop fuel cs 0) as [out|] eqn:Hs.
    + intros [= Hrun]. right. by exists cs, out.
    + discriminate.
  - intros [= <- <-]. left. by exists e.
Qed.

Lemma summarizeWithLLM_inv (fuel : nat) (messages : list Message) (result : string)
    (trace : list Event) :
  summarizeWithLLM fuel messages = Some (result, trace) →
  ∃ r, tryBlock fuel messages = Some (r, trace)
       ∧ result = match r with Ok fullSummary => fullSummary | Throw _ => fallbackMessage end.
Proof.
  unfold summarizeWithLLM. destruct (tryBlock fuel messages) as [[[s|e] tr]|]; [..|done].
  - intros [= <- <-]. by exists (Ok s).
  - intros [= <- <-]. by exists (Throw e).
Qed.

Lemma withinBudget_pipeline (messageChunks : list (list string)) :
  Inv withinBudget (summarizeChunks messageChunks).
Proof.
  destruct system_prompts_distinct as (H1 & H2 & _).
  apply Inv_summarizeChunks; unfold withinBudget; simpl; intros; done.
Qed.

(** The answers in the trace of a run are those that the server gave. *)
Lemma summarizeWithLLM_recorded (fuel : nat) (messages : list Message)
    (result : string) (trace : list Event) :
  summarizeWithLLM fuel messages = Some (result, trace) → recorded [] trace.
Proof.
  intros (r & Hrun & _)%summarizeWithLLM_inv.
  apply tryBlock_inv in Hrun as [(e & _ & _ & ->)|(cs & out & _ & _ & Hrun)].
  - intros i e'. by rewrite lookup_nil.
  - pose proof (inv_recorded _ _ (withinBudget_pipeline out) []) as Hrec.
    by rewrite Hrun in Hrec.
Qed.

(** C1, amended. Every summarization request of a run, the first of a
    batch or a continuation, carries a prompt of at most 3800 tokens; and a
    chunk whose prompt counts more ends its batch there: no request is made
    for it nor for the chunks after it, and the batch summary gathered so
    far stands.  Consolidation and refinement prompts are sent whatever
    they count. *)
Theorem summarization_requests_within_budget (fuel : nat) (messages : list Message)
    (result : string) (trace : list Event) :
  summarizeWithLLM fuel messages = Some (result, trace) →
  Forall withinBudget trace
  ∧ (∀ i chunk rest batchSummary h,
       3800 < countTokens (chunkPrompt i batchSummary (join nl chunk)) →
       chunkLoop i (chunk :: rest) batchSummary h = (Ok batchSummary, []))
  ∧ (∀ fullSummary batchSummary h,
       fullSummary ≠ "" →
       (consolidate fullSummary batchSummary h).2
       = [exchange getConsolidationSystemPrompt
            (getConsolidationPrompt fullSummary batchSummary)
            (llm h (request getConsolidationSystemPrompt
                      (getConsolidationPrompt fullSummary batchSummary)))])
  ∧ (∀ messageChunks fullSummary h,
       BATCH_SIZE < length messageChunks →
       (refine messageChunks fullSummary h).2
       = [exchange getRefinementSystemPrompt (getRefinementPrompt fullSummary)
            (llm h (request getRefinementSystemPrompt
                      (getRefinementPrompt fullSummary)))]).
Proof.
  intros (r & Hrun & _)%summarizeWithLLM_inv. split_and!.
  - apply tryBlock_inv in Hrun as [(e & _ & _ & ->)|(cs & out & _ & _ & Hrun)].
    + constructor.
    + pose proof (inv_emits _ _ (withinBudget_pipeline out) []) as Hemit.
      by rewrite Hrun in Hemit.
  - intros i chunk rest bs h Hbig. rewrite chunkLoop_cons. by rewrite decide_True.
  - intros fs bs h Hfs. unfold consolidate.
    by rewrite decide_False, run_complete by done.
  - intros cs fs h Hlen. unfold refine.
    by rewrite decide_True, run_complete by done.
Qed.

(** C3. When a completion call of a run fails (the request is rejected or
    the answer lacks the choices structure), that call is the last of the
    run and the run returns the fallback message.  The failure recorded in
    the trace is the answer of the server to that request. *)
Theorem fallback_on_completion_error (fuel : nat) (messages : list Message)
    (result : string) (trace : list Event) (i : nat) (e : Event) :
  summarizeWithLLM fuel messages = Some (result, trace) →
  trace !! i = Some e → isCompletion e = false →
  result = fallbackMessage ∧ S i = length trace
  ∧ ev_response e = llm (take i trace) (ev_request e).
Proof.
  intros Hsum Hi He.
  assert (Hanswer : ev_response e = llm (take i trace) (ev_request e)).
  { by apply (summarizeWithLLM_recorded _ _ _ _ Hsum i e). }
  apply summarizeWithLLM_inv in Hsum as (r & Hrun & ->).
  cut (match r with Ok s => s | Throw _ => fallbackMessage end = fallbackMessage
       ∧ S i = length trace); [tauto|]. clear Hanswer.
  apply tryBlock_inv in Hrun as [(x & _ & _ & ->)|(cs & out & _ & _ & Hrun)].
  { by rewrite lookup_nil in Hi. }
  pose proof (inv_tidy _ _ (withinBudget_pipeline out) []) as Htidy.
  rewrite Hrun in Htidy. unfold tidy in Htidy. simpl in Htidy.
  destruct r as [s|x].
  - eapply Forall_lookup_1 in Htidy; [|exact Hi]. congruence.
  - destruct Htidy as (tr & e' & -> & Htr & He'). split; [done|].
    rewrite length_app. simpl.
    destruct (decide (i < length tr)) as [Hlt|Hge].
    + rewrite lookup_app_l in Hi by done.
      eapply Forall_lookup_1 in Htr; [|exact Hi]. congruence.
    + apply lookup_lt_Some in Hi. rewrite length_app in Hi. simpl in Hi. lia.
Qed.

(** *** Refinement *)


Lemma summarizeChunks_Ok_inv (messageChunks : list (list string)) (h : list Event)
    (result : string) (trace : list Event) :
  summarizeChunks messageChunks h = (Ok result, trace) →
  ∃ fullSummary t0,
    batchLoop messageChunks (batchCount messageChunks) 0 "" h = (Ok fullSummary, t0)
    ∧ ((BATCH_SIZE < length messageChunks
        ∧ trace = t0 ++ [exchange getRefinementSystemPrompt
                           (getRefinementPrompt fullSummary) (Completion result)])
       ∨ (length messageChunks ≤ BATCH_SIZE ∧ result = fullSummary ∧ trace = t0)).
Proof.
  unfold summarizeChunks.
  intros (fs & t0 & t1 & Hloop & Href & ->)%bind_Ok_inv.
  exists fs, t0. split; [done|]. unfold refine in Href.
  case_decide as Hlen.
  - left. split; [done|]. by apply complete_Ok_inv in Href as ->.
  - right. rewrite run_ret in Href. injection Href as <- <-.
    split_and!; [lia|done|by rewrite app_nil_r].
Qed.


(** *** Consolidation *)


Lemma chunkLoop_consolidations (rest : list (list string)) (i : nat)
    (batchSummary : string) (h : list Event) :
  callsTo getConsolidationSystemPrompt (chunkLoop i rest batchSummary h).2 = 0.
Proof.
  apply callsTo_none. destruct system_prompts_distinct as (H1 & _ & _).
  eapply Forall_impl; [apply chunkLoop_requests|]. simpl. intros e ->. done.
Qed.



(** A batch is folded in without a request when the running summary is
    empty, so there are never more consolidation requests than batches after
    the first. *)
Lemma batchLoop_consolidations_le (messageChunks : list (list string))
    (remaining batchIndex : nat) (fullSummary : string) (h : list Event) :
  callsTo getConsolidationSystemPrompt
    (batchLoop messageChunks remaining batchIndex fullSummary h).2
  ≤ remaining - (if decide (fullSummary = "") then 1 else 0).
Proof.
  revert batchIndex fullSummary h.
  induction remaining as [|remaining IH]; intros bi fs h.
  { rewrite batchLoop_0, run_ret. simpl. unfold callsTo. simpl. lia. }
  rewrite batchLoop_S, run_bind.
  pose proof (chunkLoop_consolidations (currentBatch messageChunks bi) 0 "" h) as Ht1.
  destruct (chunkLoop 0 _ "" h) as [[bs|x] t1]; simpl in Ht1.
  2: { simpl. lia. }
  rewrite run_bind. unfold consolidate. case_decide as Hfs.
  - rewrite run_ret.
    specialize (IH (S bi) bs ((h ++ t1) ++ [])).
    destruct (batchLoop _ _ _ _ _) as [r t3]. simpl in *.
    rewrite callsTo_app, Ht1. case_decide; lia.
  - rewrite run_complete.
    destruct (llm (h ++ t1) _) as [| |content]; simpl.
    1, 2: rewrite callsTo_app, Ht1, callsTo_exchange, decide_True by done; lia.
    match goal with |- context [batchLoop ?a ?b ?c ?d ?e] =>
      specialize (IH c d e); destruct (batchLoop a b c d e) as [r t3] end.
    simpl in *. rewrite callsTo_app, Ht1, callsTo_cons. simpl.
    case_decide; lia.
Qed.





(** *** Nothing to summarize *)

Lemma mapOutcome_all_null {A : Type} (formatter : A → Outcome (option string))
    (messages : list A) :
  Forall (λ m, formatter m = Ok None) messages →
  ∃ formatted, mapOutcome formatter messages = Ok formatted ∧ omap id formatted = [].
Proof.
  induction 1 as [|m messages Hm _ (formatted & IH1 & IH2)].
  - by exists [].
  - exists (None :: formatted). simpl. by rewrite Hm, IH1.
Qed.

(** C10. When every message is formatted to null, and so when there is no
    message, there is no chunk, and the run returns the empty string
    without a request; the fallback message is not returned. *)
Theorem nothing_to_summarize (fuel : nat) (messages : list Message) :
  Forall (λ m, formatMessageCompact m = Ok None) messages → 0 < fuel →
  createTokenBasedChunks messages formatMessageCompact = Ok []
  ∧ summarizeWithLLM fuel messages = Some ("", [])
  ∧ "" ≠ fallbackMessage.
Proof.
  intros (formatted & Hmap & Hnone)%mapOutcome_all_null Hfuel.
  assert (Hchunks : createTokenBasedChunks messages formatMessageCompact = Ok []).
  { unfold createTokenBasedChunks. rewrite Hmap. simpl. by rewrite Hnone. }
  split_and!; [done| |done].
  unfold summarizeWithLLM, tryBlock. rewrite Hchunks.
  destruct fuel as [|fuel]; [lia|]. by rewrite splitLoop_unfold.
Qed.

(** *** The run returns *)

(** The lines of the chunks are the stored lines. *)
Lemma createTokenBasedChunks_lines {A : Type} (messages : list A)
    (formatter : A → Outcome (option string)) (formatted : list (option string)) :
  mapOutcome formatter messages = Ok formatted →
  ∃ messageChunks,
    createTokenBasedChunks messages formatter = Ok messageChunks
    ∧ concat messageChunks = stored <$> omap id formatted.
Proof.
  intros Hmap. unfold createTokenBasedChunks. rewrite Hmap. simpl.
  set (st0 := {| chunks := []; currentChunk := []; currentTokenCount := 0 |}).
  set (st := foldl chunkerStep st0 (omap id formatted)).
  pose proof (chunkerLoop_lines (omap id formatted) st0) as Hlines.
  fold st in Hlines. unfold linesOf in Hlines. simpl in Hlines.
  eexists. split; [done|].
  rewrite <- Hlines. case_bool_decide as Hlen.
  - rewrite concat_app. simpl. by rewrite app_nil_r.
  - destruct (currentChunk st); [by rewrite app_nil_r|simpl in Hlen; lia].
Qed.

(** When the formatter does not throw and no stored line counts more than
    2000 tokens, the split pass ends and the run returns. *)
Lemma summarizeWithLLM_returns (messages : list Message)
    (formatted : list (option string)) :
  mapOutcome formatMessageCompact messages = Ok formatted →
  Forall (λ line, countTokens (stored line) ≤ 2000) (omap id formatted) →
  ∃ fuel result trace, summarizeWithLLM fuel messages = Some (result, trace).
Proof.
  intros Hmap Hlines.
  destruct (createTokenBasedChunks_lines _ _ _ Hmap) as (cs & Hchunks & Hconcat).
  assert (Hcs : Forall (Forall (λ line, countTokens line ≤ 2000)) cs).
  { apply Forall_concat. rewrite Hconcat. by apply Forall_fmap. }
  destruct (splitLoop_terminates cs 0 Hcs) as (fuel & out & Hsplit).
  exists fuel. unfold summarizeWithLLM, tryBlock. rewrite Hchunks, Hsplit.
  destruct (summarizeChunks out []) as [[s|x] trace]; by eexists _, _.
Qed.

(** ** Further properties of the chunker *)

Lemma recount_snoc (chunk : list string) (line : string) :
  recount (chunk ++ [line]) = recount chunk + countTokens line.
Proof. unfold recount. by rewrite foldl_app. Qed.

(** What the chunker keeps true of its state: the running total is the
    recount of the open chunk. *)
Lemma chunkerStep_total (st : ChunkerState) (formattedMsg : string) :
  currentTokenCount st = recount (currentChunk st) →
  currentTokenCount (chunkerStep st formattedMsg)
  = recount (currentChunk (chunkerStep st formattedMsg)).
Proof.
  intros Hst. unfold chunkerStep.
  set (st1 := if _ && _ then _ else st).
  assert (Hst1 : currentTokenCount st1 = recount (currentChunk st1)).
  { subst st1. by destruct (_ && _). }
  destruct (veryLarge _); simpl; [done|].
  by rewrite recount_snoc, Hst1.
Qed.

(** X1. At every point of the chunker's loop the running token total
    equals the sum of the token counts of the lines of the open chunk, so
    the recount made after a truncation is the only place where the total
    is not obtained by addition. *)
Theorem chunker_total_is_recount (lines : list string) :
  let st := foldl chunkerStep
              {| chunks := []; currentChunk := []; currentTokenCount := 0 |} lines in
  currentTokenCount st = recount (currentChunk st).
Proof.
  simpl.
  assert (H : ∀ st, currentTokenCount st = recount (currentChunk st) →
                    currentTokenCount (foldl chunkerStep st lines)
                    = recount (currentChunk (foldl chunkerStep st lines))).
  { induction lines as [|l ls IH]; intros st Hst; simpl; [done|].
    by apply IH, chunkerStep_total. }
  by apply H.
Qed.

Lemma chunkerStep_budget (st : ChunkerState) (formattedMsg : string) :
  veryLarge (countTokens formattedMsg) = false →
  currentTokenCount st = recount (currentChunk st) →
  Forall withinChunkBudget (chunks st) →
  (currentChunk st = [] ∨ withinChunkBudget (currentChunk st)) →
  Forall withinChunkBudget (chunks (chunkerStep st formattedMsg))
  ∧ withinChunkBudget (currentChunk (chunkerStep st formattedMsg)).
Proof.
  intros Hsmall Htotal Hclosed Hopen. unfold chunkerStep. rewrite Hsmall.
  unfold veryLarge in Hsmall. apply bool_decide_eq_false in Hsmall.
  unfold withinChunkBudget in *.
  destruct (bool_decide (maxChunkTokens < _)%Z) eqn:Hover; simpl.
  - destruct (bool_decide (0 < length (currentChunk st))) eqn:Hlen; simpl.
    + apply bool_decide_eq_true in Hlen. split.
      * apply Forall_app. split; [done|]. apply Forall_singleton.
        destruct Hopen as [Hnil|Hfit]; [|done].
        rewrite Hnil in Hlen. simpl in Hlen. lia.
      * change [formattedMsg] with ([] ++ [formattedMsg]).
        rewrite recount_snoc. unfold recount. simpl. lia.
    + apply bool_decide_eq_false in Hlen. split; [done|].
      destruct (currentChunk st); [|simpl in Hlen; lia].
      rewrite recount_snoc. unfold recount. simpl. lia.
  - apply bool_decide_eq_false in Hover. split; [done|].
    rewrite recount_snoc. rewrite Htotal in Hover. lia.
Qed.

(** X2. When no formatted line is very large (none counts more than three
    quarters of the chunk budget), the token counts of the lines of every
    chunk add up to at most the chunk budget. *)
Theorem chunks_within_budget {A : Type} (messages : list A)
    (formatter : A → Outcome (option string)) (formatted : list (option string))
    (messageChunks : list (list string)) :
  mapOutcome formatter messages = Ok formatted →
  Forall (λ line, veryLarge (countTokens line) = false) (omap id formatted) →
  createTokenBasedChunks messages formatter = Ok messageChunks →
  Forall (λ chunk, (Z.of_nat (recount chunk) ≤ maxChunkTokens)%Z) messageChunks.
Proof.
  intros Hmap Hsmall. unfold createTokenBasedChunks. rewrite Hmap. simpl.
  set (st0 := {| chunks := []; currentChunk := []; currentTokenCount := 0 |}).
  assert (H : ∀ lines st,
            Forall (λ line, veryLarge (countTokens line) = false) lines →
            currentTokenCount st = recount (currentChunk st) →
            Forall withinChunkBudget (chunks st) →
            (currentChunk st = [] ∨ withinChunkBudget (currentChunk st)) →
            Forall withinChunkBudget (chunks (foldl chunkerStep st lines))
            ∧ (currentChunk (foldl chunkerStep st lines) = []
               ∨ withinChunkBudget (currentChunk (foldl chunkerStep st lines)))).
  { induction lines as [|l ls IH]; intros st Hls Htotal Hclosed Hopen; simpl; [done|].
    apply Forall_cons in Hls as [Hl Hls].
    destruct (chunkerStep_budget st l Hl Htotal Hclosed Hopen) as [Hclosed' Hopen'].
    apply IH; [done| |done|by right]. by apply chunkerStep_total. }
  destruct (H (omap id formatted) st0 Hsmall eq_refl (Forall_nil_2 _) (or_introl eq_refl))
    as [Hclosed Hopen].
  intros [= <-]. case_bool_decide as Hlen; [|done].
  apply Forall_app. split; [done|]. apply Forall_singleton.
  destruct Hopen as [Hnil|Hfit]; [|done].
  rewrite Hnil in Hlen. simpl in Hlen. lia.
Qed.

(** The first exception of the formatter is that of the chunker. *)
Lemma mapOutcome_throws {A B : Type} (f : A → Outcome B) (xs : list A) (x : A) :
  x ∈ xs → (∃ e, f x = Throw e) → ∃ e, mapOutcome f xs = Throw e.
Proof.
  intros Hx [e He]. induction xs as [|y ys IH]; [by apply elem_of_nil in Hx|].
  simpl. destruct (f y) as [b|e'] eqn:Hy; [|by eexists].
  apply elem_of_cons in Hx as [->|Hx]; [congruence|].
  destruct (IH Hx) as [e'' ->]. by eexists.
Qed.

(** X3. One record on which the formatter throws (a reply whose quoted
    message has no body) makes the whole run return the fallback message,
    without a request and before the split pass, whatever the other
    messages are. *)
Theorem malformed_record_aborts_run (fuel : nat) (messages : list Message)
    (msg : Message) (e : Exn) :
  msg ∈ messages → formatMessageCompact msg = Throw e →
  (∃ e', createTokenBasedChunks messages formatMessageCompact = Throw e')
  ∧ summarizeWithLLM fuel messages = Some (fallbackMessage, []).
Proof.
  intros Hin Hthrow.
  destruct (mapOutcome_throws formatMessageCompact messages msg Hin) as [e' Hmap];
    [by eexists|].
  assert (Hchunks : createTokenBasedChunks messages formatMessageCompact = Throw e').
  { unfold createTokenBasedChunks. by rewrite Hmap. }
  split; [by eexists|].
  unfold summarizeWithLLM, tryBlock. by rewrite Hchunks.
Qed.

(** ** Further properties of the split pass *)

Lemma splitLoop_length (fuel : nat) (messageChunks : list (list string)) (i : nat)
    (out : list (list string)) :
  splitLoop fuel messageChunks i = Some out → length messageChunks ≤ length out.
Proof.
  revert messageChunks i.
  induction fuel as [|fuel IH]; intros cs i; [done|].
  rewrite splitLoop_unfold. destruct (cs !! i) as [chunk|] eqn:Hi.
  - pose proof (lookup_lt_Some _ _ _ Hi) as Hlt.
    case_decide; intros Hout; apply IH in Hout; [|done].
    rewrite !length_app, length_take, length_drop in Hout. simpl in Hout. lia.
  - by intros [= <-].
Qed.

Lemma splitLoop_nonempty (fuel : nat) (messageChunks : list (list string)) (i : nat)
    (out : list (list string)) :
  splitLoop fuel messageChunks i = Some out →
  Forall (λ chunk, chunk ≠ []) messageChunks → Forall (λ chunk, chunk ≠ []) out.
Proof.
  revert messageChunks i.
  induction fuel as [|fuel IH]; intros cs i; [done|].
  rewrite splitLoop_unfold. destruct (cs !! i) as [chunk|] eqn:Hi.
  2: { by intros [= <-]. }
  pose proof (lookup_lt_Some _ _ _ Hi) as Hlt.
  case_decide as Hbig; intros Hout Hcs; [|by apply (IH _ _ Hout)].
  destruct chunk as [|l [|l' chunk]].
  - cbn [join] in Hbig. rewrite countTokens_empty in Hbig. lia.
  - rewrite (splitLoop_diverges fuel _ i (S i) l) in Hout; [done|lia| |done].
    rewrite lookup_app_r; rewrite length_take; [|lia].
    replace (S i - i `min` length cs) with 1 by lia. done.
  - apply (IH _ _ Hout).
    pose proof (Nat.div_mod_eq (length (l :: l' :: chunk)) 2) as Hdiv.
    pose proof (Nat.mod_upper_bound (length (l :: l' :: chunk)) 2) as Hmod.
    cbn [length] in Hdiv, Hmod.
    repeat first [apply Forall_app; split | apply Forall_cons; split
                 | apply Forall_nil_2];
      auto using Forall_take, Forall_drop.
    + intros Hnil. apply (f_equal length) in Hnil.
      rewrite length_take in Hnil. cbn [length] in Hnil. lia.
    + intros Hnil. apply (f_equal length) in Hnil.
      rewrite length_drop in Hnil. cbn [length] in Hnil. lia.
Qed.

(** X4. The split pass moves chunk boundaries only: when it ends, the
    lines of its chunks, end to end, are those it was given, in the same
    order; it never has fewer chunks than it was given, and it makes no
    empty chunk out of chunks that are not empty. *)
Theorem split_pass_keeps_lines (fuel : nat) (messageChunks out : list (list string)) :
  splitLoop fuel messageChunks 0 = Some out →
  concat out = concat messageChunks
  ∧ length messageChunks ≤ length out
  ∧ (Forall (λ chunk, chunk ≠ []) messageChunks → Forall (λ chunk, chunk ≠ []) out).
Proof.
  intros Hout. split_and!.
  - by apply (splitLoop_concat fuel _ 0).
  - by apply (splitLoop_length fuel _ 0).
  - by apply (splitLoop_nonempty fuel _ 0).
Qed.

(** X5. When no line counts more than 2000 tokens the split pass ends,
    with chunks that all fit and that hold the same lines. *)
Theorem split_pass_ends_when_lines_fit (messageChunks : list (list string)) :
  Forall (Forall (λ line, countTokens line ≤ 2000)) messageChunks →
  ∃ fuel out,
    splitLoop fuel messageChunks 0 = Some out
    ∧ Forall (λ chunk, countTokens (join nl chunk) ≤ 2000) out
    ∧ concat out = concat messageChunks.
Proof.
  intros Hlines.
  destruct (splitLoop_terminates messageChunks 0 Hlines) as (fuel & out & Hout).
  exists fuel, out. split_and!; [done| |by apply (splitLoop_concat fuel _ 0)].
  apply (splitLoop_bound fuel _ 0 _ Hout). by rewrite take_0.
Qed.

Lemma splitLoop_fitting (messageChunks : list (list string)) (i k : nat) :
  Forall fits messageChunks → length messageChunks ≤ i + k →
  splitLoop (S k) messageChunks i = Some messageChunks.
Proof.
  intros Hfit. revert i. induction k as [|k IH]; intros i Hlen;
    rewrite splitLoop_unfold; destruct (messageChunks !! i) as [chunk|] eqn:Hi;
    try done.
  - apply lookup_lt_Some in Hi. lia.
  - eapply Forall_lookup_1 in Hfit; [|exact Hi]. unfold fits in Hfit.
    rewrite decide_False by lia. apply IH. lia.
Qed.

(** X6. Chunks that all count at most 2000 tokens are left as they are:
    the split pass goes over them once and returns the same sequence. *)
Theorem split_pass_leaves_fitting_chunks (messageChunks : list (list string)) (fuel : nat) :
  Forall (λ chunk, countTokens (join nl chunk) ≤ 2000) messageChunks →
  length messageChunks < fuel →
  splitLoop fuel messageChunks 0 = Some messageChunks.
Proof.
  intros Hfit Hfuel. destruct fuel as [|k]; [lia|].
  apply splitLoop_fitting; [done|lia].
Qed.

(** X7. A chunk of one line that counts more than 2000 tokens, anywhere
    in the sequence, keeps the split pass from ending: it is replaced by an
    empty chunk and itself each time it is met. *)
Theorem split_pass_stuck_on_long_line (messageChunks : list (list string))
    (line : string) (fuel : nat) :
  [line] ∈ messageChunks → 2000 < countTokens line →
  splitLoop fuel messageChunks 0 = None.
Proof.
  intros [j Hj]%list_elem_of_lookup Hbig.
  apply (splitLoop_diverges fuel _ 0 j line); [lia|done..].
Qed.

(** ** Further properties of the pipeline *)

Lemma string_app_assoc (s1 s2 s3 : string) : (s1 +:+ s2) +:+ s3 = s1 +:+ s2 +:+ s3.
Proof.
  induction s1 as [|c s1 IH]; [done|].
  change (String c ((s1 +:+ s2) +:+ s3) = String c (s1 +:+ s2 +:+ s3)).
  by f_equal.
Qed.

Lemma join_snoc (sep : string) (xs : list string) (x : string) :
  xs ≠ [] → join sep (xs ++ [x]) = join sep xs +:+ sep +:+ x.
Proof.
  induction xs as [|y [|z xs] IH]; intros Hne; [done|done|].
  change (join sep ((y :: z :: xs) ++ [x]))
    with (y +:+ sep +:+ join sep ((z :: xs) ++ [x])).
  rewrite IH by done.
  change (join sep (y :: z :: xs)) with (y +:+ sep +:+ join sep (z :: xs)).
  by rewrite !string_app_assoc.
Qed.

Lemma answers_cons_completion (systemPrompt prompt content : string)
    (trace : list Event) :
  answers (exchange systemPrompt prompt (Completion content) :: trace)
  = content :: answers trace.
Proof. done. Qed.

Lemma chunkLoop_joined (rest : list (list string)) (i : nat) (batchSummary : string)
    (h : list Event) (result : string) (trace : list Event) (prev : list string) :
  chunkLoop i rest batchSummary h = (Ok result, trace) →
  batchSummary = join (nl +:+ nl) prev → (i = 0 ↔ prev = []) →
  result = join (nl +:+ nl) (prev ++ answers trace) ∧ length trace ≤ length rest.
Proof.
  revert i batchSummary h trace prev.
  induction rest as [|chunk rest IH]; intros i bs h trace prev.
  - rewrite chunkLoop_nil, run_ret. intros [= <- <-] -> _.
    by rewrite app_nil_r.
  - rewrite chunkLoop_cons. case_decide as Hbig.
    + rewrite run_ret. intros [= <- <-] -> _. rewrite app_nil_r. simpl. split; [done|lia].
    + intros (content & t1 & t2 & Hcall & Hrest & ->)%bind_Ok_inv Hbs Hi.
      apply complete_Ok_inv in Hcall as ->.
      change ([?e] ++ t2) with (e :: t2). rewrite answers_cons_completion.
      destruct (IH _ _ _ _ (prev ++ [content]) Hrest) as [-> Hlen].
      * case_decide as Hi0.
        -- apply Hi in Hi0 as ->. reflexivity.
        -- rewrite join_snoc, <- Hbs; [reflexivity|]. by intros ?%Hi.
      * split; [done|]. by intros [_ [=]]%app_nil.
      * rewrite <- app_assoc. simpl. split; [done|lia].
Qed.

Lemma chunkLoop_summary (batch : list (list string))
    (h : list Event) (batchSummary : string) (trace : list Event) :
  chunkLoop 0 batch "" h = (Ok batchSummary, trace) →
  batchSummary = join (nl +:+ nl) (answers trace)
  ∧ length trace ≤ length batch
  ∧ callsTo getSummarizationSystemPrompt trace = length trace.
Proof.
  intros Hrun.
  destruct (chunkLoop_joined batch 0 "" h batchSummary trace [] Hrun) as [Hs Hlen];
    [done..|].
  split_and!; [done..|].
  pose proof (chunkLoop_requests batch 0 "" h) as Hreq. rewrite Hrun in Hreq.
  simpl in Hreq. clear -Hreq. induction Hreq as [|e tr He _ IH]; [done|].
  rewrite callsTo_cons, decide_True, IH by done. done.
Qed.

(** X8. The summary of a batch is made of the completions received for
    its chunks, in order, joined by a blank line and otherwise verbatim;
    there is at most one request per chunk of the batch, and the requests
    are summarization requests. *)
Theorem batch_summary_is_joined_answers (batch : list (list string))
    (h : list Event) (batchSummary : string) (trace : list Event) :
  chunkLoop 0 batch "" h = (Ok batchSummary, trace) →
  batchSummary = join (nl +:+ nl) (answers trace)
  ∧ length trace ≤ length batch
  ∧ callsTo getSummarizationSystemPrompt trace = length trace.
Proof. apply chunkLoop_summary. Qed.

Lemma batchCount_at_most_one (messageChunks : list (list string)) :
  length messageChunks ≤ BATCH_SIZE →
  messageChunks = [] ∧ batchCount messageChunks = 0
  ∨ currentBatch messageChunks 0 = messageChunks ∧ batchCount messageChunks = 1.
Proof.
  destruct messageChunks as [|c1 [|c2 [|c3 cs]]]; unfold BATCH_SIZE; simpl; intros Hlen.
  - by left.
  - by right.
  - by right.
  - lia.
Qed.

(** X9. For a chat of at most two chunks (a single batch) a run that ends
    without an error returns the completions of its chunks joined by a
    blank line, verbatim: there is no consolidation and no refinement
    request, and a chat of one chunk gets back the one completion as it
    is. *)
Theorem single_batch_summary_is_verbatim (fuel : nat) (messages : list Message)
    (messageChunks out : list (list string)) (result : string) (trace : list Event) :
  createTokenBasedChunks messages formatMessageCompact = Ok messageChunks →
  splitLoop fuel messageChunks 0 = Some out →
  length out ≤ BATCH_SIZE →
  tryBlock fuel messages = Some (Ok result, trace) →
  summarizeWithLLM fuel messages = Some (result, trace)
  ∧ result = join (nl +:+ nl) (answers trace)
  ∧ length trace ≤ length out
  ∧ callsTo getSummarizationSystemPrompt trace = length trace.
Proof.
  intros Hchunks Hsplit Hlen Hrun.
  split; [unfold summarizeWithLLM; by rewrite Hrun|].
  unfold tryBlock in Hrun. rewrite Hchunks, Hsplit in Hrun.
  injection Hrun as Hsum.
  apply summarizeChunks_Ok_inv in Hsum as (fs & t0 & Hloop & Hcases).
  destruct Hcases as [[Hmore _]|(_ & -> & ->)]; [lia|].
  destruct (batchCount_at_most_one out Hlen) as [[-> Hcount]|[Hbatch Hcount]];
    rewrite Hcount in Hloop.
  - rewrite batchLoop_0, run_ret in Hloop. by injection Hloop as <- <-.
  - rewrite batchLoop_S in Hloop.
    apply bind_Ok_inv in Hloop as (bs & t1 & t' & Hfirst & Hrest & ->).
    apply bind_Ok_inv in Hrest as (fs' & t2 & t3 & Hcons & Hrest & ->).
    unfold consolidate in Hcons. rewrite decide_True, run_ret in Hcons by done.
    injection Hcons as <- <-.
    rewrite batchLoop_0, run_ret in Hrest. injection Hrest as <- <-.
    rewrite !app_nil_r. rewrite Hbatch in Hfirst.
    by apply chunkLoop_summary in Hfirst.
Qed.

(** *** How many requests a run makes *)

Lemma callsTo_le_length (systemPrompt : string) (trace : list Event) :
  callsTo systemPrompt trace ≤ length trace.
Proof. unfold callsTo. apply length_filter. Qed.

Lemma chunkLoop_length (rest : list (list string)) (i : nat) (batchSummary : string)
    (h : list Event) :
  length (chunkLoop i rest batchSummary h).2 ≤ length rest.
Proof.
  revert i batchSummary h. induction rest as [|chunk rest IH]; intros i bs h.
  - by rewrite chunkLoop_nil, run_ret.
  - rewrite chunkLoop_cons. case_decide; [rewrite run_ret; simpl; lia|].
    rewrite run_bind, run_complete.
    destruct (llm h _) as [| |content]; simpl; [lia..|].
    match goal with |- context [chunkLoop ?a ?b ?c ?d] =>
      specialize (IH a c d); destruct (chunkLoop a b c d) as [r t2] end.
    simpl in *. lia.
Qed.

Lemma consolidate_summarizations (fullSummary batchSummary : string) (h : list Event) :
  callsTo getSummarizationSystemPrompt (consolidate fullSummary batchSummary h).2 = 0.
Proof.
  apply callsTo_none. destruct system_prompts_distinct as (H1 & _ & _).
  apply (Inv_consolidate (λ e, system (ev_request e) ≠ _)). simpl. by intros.
Qed.

Lemma currentBatch_length (messageChunks : list (list string)) (batchIndex : nat) :
  length (currentBatch messageChunks batchIndex)
  + length (drop (S batchIndex * BATCH_SIZE) messageChunks)
  = length (drop (batchIndex * BATCH_SIZE) messageChunks).
Proof.
  unfold currentBatch, BATCH_SIZE. rewrite length_take, !length_drop. lia.
Qed.

Lemma batchLoop_summarizations (messageChunks : list (list string))
    (remaining batchIndex : nat) (fullSummary : string) (h : list Event) :
  callsTo getSummarizationSystemPrompt
    (batchLoop messageChunks remaining batchIndex fullSummary h).2
  ≤ length (drop (batchIndex * BATCH_SIZE) messageChunks).
Proof.
  revert batchIndex fullSummary h.
  induction remaining as [|remaining IH]; intros bi fs h.
  { rewrite batchLoop_0, run_ret. unfold callsTo. simpl. lia. }
  rewrite batchLoop_S, run_bind.
  pose proof (chunkLoop_length (currentBatch messageChunks bi) 0 "" h) as Ht1.
  pose proof (currentBatch_length messageChunks bi) as Hbatch.
  destruct (chunkLoop 0 _ "" h) as [[bs|x] t1]; simpl in Ht1.
  2: { simpl. pose proof (callsTo_le_length getSummarizationSystemPrompt t1). lia. }
  rewrite run_bind.
  pose proof (consolidate_summarizations fs bs (h ++ t1)) as Ht2.
  pose proof (callsTo_le_length getSummarizationSystemPrompt t1) as Hle.
  destruct (consolidate fs bs (h ++ t1)) as [[fs'|x] t2]; simpl in Ht2.
  2: { simpl. rewrite callsTo_app. lia. }
  specialize (IH (S bi) fs' ((h ++ t1) ++ t2)).
  destruct (batchLoop _ _ _ _ _) as [r t3]. simpl in *.
  rewrite !callsTo_app. lia.
Qed.

Lemma refine_calls (messageChunks : list (list string)) (fullSummary : string)
    (h : list Event) :
  callsTo getSummarizationSystemPrompt (refine messageChunks fullSummary h).2 = 0
  ∧ callsTo getConsolidationSystemPrompt (refine messageChunks fullSummary h).2 = 0
  ∧ callsTo getRefinementSystemPrompt (refine messageChunks fullSummary h).2 ≤ 1.
Proof.
  destruct system_prompts_distinct as (_ & H1 & H2).
  unfold refine. case_decide.
  - rewrite run_complete. simpl. rewrite !callsTo_exchange.
    rewrite !decide_False, decide_True by done. lia.
  - rewrite run_ret. unfold callsTo. simpl. lia.
Qed.

(** The requests of a run are of the three kinds. *)
Lemma summarizeChunks_kinds (messageChunks : list (list string)) (h : list Event) :
  Forall (λ e, system (ev_request e) = getSummarizationSystemPrompt
               ∨ system (ev_request e) = getConsolidationSystemPrompt
               ∨ system (ev_request e) = getRefinementSystemPrompt)
         (summarizeChunks messageChunks h).2.
Proof.
  apply (Inv_summarizeChunks (λ e, _ ∨ _ ∨ _)); simpl; intros; tauto.
Qed.

Lemma length_by_kind (trace : list Event) :
  Forall (λ e, system (ev_request e) = getSummarizationSystemPrompt
               ∨ system (ev_request e) = getConsolidationSystemPrompt
               ∨ system (ev_request e) = getRefinementSystemPrompt) trace →
  length trace = callsTo getSummarizationSystemPrompt trace
                 + callsTo getConsolidationSystemPrompt trace
                 + callsTo getRefinementSystemPrompt trace.
Proof.
  destruct system_prompts_distinct as (H1 & H2 & H3).
  induction 1 as [|e trace He _ IH]; [done|].
  rewrite !callsTo_cons. simpl. rewrite IH.
  destruct He as [He|[He|He]]; rewrite He;
    repeat (case_decide; try congruence); lia.
Qed.

(** X10. A run makes at most one summarization request per chunk, at most
    one consolidation request per batch after the first and at most one
    refinement request, and no request of another kind: never more than the
    number of chunks plus the number of batches in all. *)
Theorem requests_bounded (fuel : nat) (messages : list Message)
    (messageChunks out : list (list string)) (result : string) (trace : list Event) :
  createTokenBasedChunks messages formatMessageCompact = Ok messageChunks →
  splitLoop fuel messageChunks 0 = Some out →
  summarizeWithLLM fuel messages = Some (result, trace) →
  callsTo getSummarizationSystemPrompt trace ≤ length out
  ∧ callsTo getConsolidationSystemPrompt trace ≤ batchCount out - 1
  ∧ callsTo getRefinementSystemPrompt trace ≤ 1
  ∧ length trace = callsTo getSummarizationSystemPrompt trace
                   + callsTo getConsolidationSystemPrompt trace
                   + callsTo getRefinementSystemPrompt trace
  ∧ length trace ≤ length out + batchCount out.
Proof.
  intros Hchunks Hsplit Hrun.
  assert (Htrace : trace = (summarizeChunks out []).2).
  { unfold summarizeWithLLM, tryBlock in Hrun. rewrite Hchunks, Hsplit in Hrun.
    destruct (summarizeChunks out []) as [[s|x] tr]; by injection Hrun as _ <-. }
  pose proof (length_by_kind _ (summarizeChunks_kinds out [])) as Hkinds.
  rewrite <- Htrace in Hkinds.
  assert (Hcounts : callsTo getSummarizationSystemPrompt trace ≤ length out
                    ∧ callsTo getConsolidationSystemPrompt trace ≤ batchCount out - 1
                    ∧ callsTo getRefinementSystemPrompt trace ≤ 1).
  { rewrite Htrace. unfold summarizeChunks. rewrite run_bind.
    pose proof (batchLoop_summarizations out (batchCount out) 0 "" []) as Hs.
    pose proof (batchLoop_consolidations_le out (batchCount out) 0 "" []) as Hc.
    pose proof (batchLoop_requests out (batchCount out) 0 "" []) as Hr.
    apply callsTo_none in Hr. rewrite decide_True in Hc by done.
    rewrite drop_0 in Hs.
    destruct (batchLoop out (batchCount out) 0 "" []) as [[fs|x] t0]; simpl in *;
      [|lia].
    destruct (refine_calls out fs t0) as (Hrs & Hrc & Hrr).
    destruct (refine out fs t0) as [r t1]. simpl in *.
    rewrite !callsTo_app. lia. }
  assert (Hbatches : batchCount out ≤ length out ≤ 2 * batchCount out).
  { unfold batchCount, BATCH_SIZE.
    pose proof (Nat.div_mod_eq (length out + 2 - 1) 2).
    pose proof (Nat.mod_upper_bound (length out + 2 - 1) 2). lia. }
  destruct out as [|chunk out'].
  - rewrite Htrace. split_and!; try reflexivity; vm_compute; lia.
  - cbn [length] in *. split_and!; lia.
Qed.

(** *** The batches *)

Lemma currentBatch_take (messageChunks : list (list string)) (batchIndex : nat) :
  currentBatch messageChunks batchIndex
  = take BATCH_SIZE (drop (batchIndex * BATCH_SIZE) messageChunks).
Proof.
  unfold currentBatch, BATCH_SIZE.
  destruct (decide (batchIndex * 2 + 2 ≤ length messageChunks)) as [Hle|Hgt].
  - f_equal. lia.
  - rewrite !take_ge; [done|rewrite length_drop; lia..].
Qed.

Lemma batches_take (messageChunks : list (list string)) (n : nat) :
  concat (currentBatch messageChunks <$> seq 0 n) = take (n * BATCH_SIZE) messageChunks.
Proof.
  induction n as [|n IH]; [done|].
  rewrite seq_S, fmap_app, concat_app, IH. simpl. rewrite app_nil_r.
  rewrite currentBatch_take. unfold BATCH_SIZE.
  rewrite take_take_drop. f_equal. lia.
Qed.

(** X11. The batches cut the chunk sequence in order: put end to end they
    give back every chunk exactly once, each batch has one or two chunks,
    and only the last can have one. *)
Theorem batches_partition_chunks (messageChunks : list (list string)) :
  concat (currentBatch messageChunks <$> seq 0 (batchCount messageChunks))
  = messageChunks
  ∧ (∀ batchIndex, batchIndex < batchCount messageChunks →
       1 ≤ length (currentBatch messageChunks batchIndex) ≤ BATCH_SIZE
       ∧ (S batchIndex < batchCount messageChunks →
          length (currentBatch messageChunks batchIndex) = BATCH_SIZE)).
Proof.
  assert (Hcount : batchCount messageChunks * 2 - 1 ≤ length messageChunks
                   ∧ length messageChunks ≤ batchCount messageChunks * 2).
  { unfold batchCount, BATCH_SIZE.
    pose proof (Nat.div_mod_eq (length messageChunks + 2 - 1) 2).
    pose proof (Nat.mod_upper_bound (length messageChunks + 2 - 1) 2). lia. }
  split.
  - rewrite batches_take. apply take_ge. unfold BATCH_SIZE. lia.
  - intros bi Hbi. rewrite currentBatch_take, length_take, length_drop.
    unfold BATCH_SIZE. lia.
Qed.

(** ** Tokenizers that give at most one token per character *)

Lemma length_append (s1 s2 : string) :
  String.length (s1 +:+ s2) = String.length s1 + String.length s2.
Proof.
  induction s1 as [|c s1 IH]; [done|].
  change (S (String.length (s1 +:+ s2)) = S (String.length s1) + String.length s2).
  by rewrite IH.
Qed.

Lemma length_substring0 (n : nat) (s : string) :
  String.length (substring0 n s) ≤ n
  ∧ String.length (substring0 n s) ≤ String.length s.
Proof.
  unfold substring0. revert n. induction s as [|c s IH]; intros [|n]; simpl; try lia.
  specialize (IH n). lia.
Qed.

Lemma maxChunkTokens_le : (maxChunkTokens ≤ 2000)%Z.
Proof. unfold maxChunkTokens. lia. Qed.

Lemma stored_bounded (line : string) :
  (∀ s, countTokens s ≤ String.length s) → countTokens (stored line) ≤ 2000.
Proof.
  intros Hchar. pose proof maxChunkTokens_le as HM. unfold stored.
  destruct (veryLarge (countTokens line)) eqn:Hlarge.
  - etrans; [apply Hchar|]. unfold truncateFurther. rewrite length_append.
    pose proof (length_substring0 (Z.to_nat (maxChunkTokens / 2)) line) as [Hlen _].
    assert (Z.to_nat (maxChunkTokens / 2) ≤ 1000).
    { assert (maxChunkTokens / 2 ≤ 1000)%Z by (apply Z.div_le_upper_bound; lia).
      lia. }
    change (String.length truncationMarker) with 37. lia.
  - unfold veryLarge in Hlarge. apply bool_decide_eq_false in Hlarge. lia.
Qed.

(** X12. With a tokenizer that never gives more tokens than a text has
    characters, the split pass ends on the chunks of every message
    sequence, and the run returns. *)
Theorem run_returns_when_tokens_at_most_characters (messages : list Message) :
  (∀ s, countTokens s ≤ String.length s) →
  ∃ fuel result trace, summarizeWithLLM fuel messages = Some (result, trace).
Proof.
  intros Hchar.
  destruct (mapOutcome formatMessageCompact messages) as [formatted|e] eqn:Hmap.
  - apply (summarizeWithLLM_returns messages formatted Hmap).
    apply Forall_forall. intros line _. by apply stored_bounded.
  - exists 0, fallbackMessage, []. unfold summarizeWithLLM, tryBlock.
    unfold createTokenBasedChunks. by rewrite Hmap.
Qed.

(** ** Further properties of the formatter *)


Lemma includesAt_beforeAt (s : string) : includesAt (beforeAt s) = false.
Proof.
  induction s as [|c s IH]; simpl; [done|].
  destruct (decide (c = "@"%char)) as [|Hc]; simpl; [done|].
  by rewrite decide_False.
Qed.


(** X14. What [formatMessage] builds has a time stamp and an author that
    is not empty, the literal [You] when the message is sent by the user;
    body, media flag and sender are copied; a quoted message has an author
    that is not empty and a body. *)
Theorem formatMessage_builds_complete_records (raw : RawMessage) (m : Message) :
  formatMessage raw false = Ok (inr m) →
  (∃ ts a, timestamp m = Some ts ∧ author m = Some a ∧ a ≠ ""
           ∧ (truthy (raw_fromMe raw) = true → a = "You"))
  ∧ body m = raw_body raw ∧ hasMedia m = raw_hasMedia raw
  ∧ from_ m = raw_from raw ∧ fromMe m = raw_fromMe raw
  ∧ (∀ q, quotedMsg m = Some q →
          ∃ qa qb, q_author q = Some qa ∧ qa ≠ "" ∧ q_body q = Some qb).
Proof.
  assert (HorElse : ∀ x y, y ≠ "" → orElse x y ≠ "").
  { intros [s|] y Hy; simpl; [|done]. by case_decide. }
  unfold formatMessage. simpl.
  destruct (raw_timestamp raw) as [t|]; [|done].
  destruct (validTime (t * 1000)); [|done]. simpl.
  assert (Hquoted : ∀ q,
            match _data raw with
            | Some d =>
                match data_quotedMsg d with
                | Some q => Some {| q_author := Some (orElse (rq_notifyName q) "Unknown");
                                    q_body := Some (orElse (rq_body q) "") |}
                | None => None
                end
            | None => None
            end = Some q →
            ∃ qa qb, q_author q = Some qa ∧ qa ≠ "" ∧ q_body q = Some qb).
  { intros q. destruct (_data raw) as [d|]; [|done].
    destruct (data_quotedMsg d) as [rq|]; [|done]. intros [= <-]. simpl.
    eexists _, _. split_and!; [done| |done]. by apply HorElse. }
  destruct (truthy (raw_fromMe raw)) eqn:Hme; simpl.
  - intros [= <-]. simpl. split_and!; try done. by eexists _, _.
  - destruct (_data raw) as [d|] eqn:Hd; [|done]. simpl.
    intros [= <-]. simpl. split_and!; try done.
    eexists _, _. split_and!; [done..| |done].
    apply HorElse. by apply HorElse.
Qed.

(** X15. A message built by [formatMessage] is dropped by the compact
    formatter exactly when the raw message has no text (no body, or an
    empty or white-space one) or has media; otherwise it gives a line, and
    it never throws. *)
Theorem built_message_dropped_iff_no_text (raw : RawMessage) (m : Message) :
  formatMessage raw false = Ok (inr m) →
  (match raw_body raw with
   | None => true
   | Some b => whitespaceOnly b
   end || truthy (raw_hasMedia raw) = true ↔ formatMessageCompact m = Ok None)
  ∧ (∃ r, formatMessageCompact m = Ok r).
Proof.
  intros Hm. pose proof (formatMessage_shape raw m Hm) as (_ & _ & Hq).
  assert (Hcopy : body m = raw_body raw ∧ hasMedia m = raw_hasMedia raw).
  { revert Hm. unfold formatMessage. simpl.
    destruct (raw_timestamp raw) as [t|]; [|done].
    destruct (validTime (t * 1000)); [|done]. simpl.
    destruct (truthy (raw_fromMe raw)); simpl.
    - by intros [= <-].
    - destruct (_data raw); [|done]. simpl. by intros [= <-]. }
  destruct Hcopy as [Hbody Hmedia].
  change (unsummarizable m) with
    (match body m with None => true | Some b => whitespaceOnly b end
     || truthy (hasMedia m)) in *.
  rewrite <- Hbody, <- Hmedia.
  destruct (match body m with None => true | Some b => whitespaceOnly b end
            || truthy (hasMedia m)) eqn:Hu.
  - rewrite (formatMessageCompact_filters m Hu). split; [done|by eexists].
  - destruct (formatMessageCompact_formats m Hu Hq) as [line ->].
    split; [split; discriminate|by eexists].
Qed.

(** ** The message counters *)






(** ** The command handlers and the files *)

Section StorageFacts.

Variable pathJoin : string → string → string.
Variable pathBasename : string → string → string.
Variable pathDirname : string → string.
Variable parseJSON : string → option (list Message).
Variable stringifyJSON : list Message → string.
Variable dataPath : string.
Variable now : N.




(** X20. The [summarize] command saves the summary twice: the handler
    writes it beside the source file, and the output step writes it again
    under the name derived from the path of that first summary file. *)
Theorem summarizeCommand_saves_twice (fuel : nat) (files : gmap string string)
    (fileName summary summaryPath : string) (files' files'' : gmap string string)
    (trace trace' : list Event) :
  handleSummarizeFile pathJoin pathBasename pathDirname parseJSON fuel files fileName
  = Some (Done (summary, summaryPath), files', trace) →
  summaryPath ≠ "" →
  summarizeCommand pathJoin pathBasename pathDirname parseJSON fuel files fileName
  = Some (files'', trace') →
  let secondPath :=
    pathJoin (pathDirname summaryPath)
      (pathBasename summaryPath ".json" +:+ "-summary.txt") in
  trace' = trace
  ∧ files'' = <[secondPath := summary]> (<[summaryPath := summary]> files)
  ∧ files'' !! secondPath = Some summary
  ∧ files'' !! summaryPath = Some summary.
Proof.
  intros Hfile Hpath. unfold summarizeCommand. rewrite Hfile.
  unfold handleSummaryOutput. rewrite decide_False by done.
  unfold saveSummaryToFile at 1. simpl. intros [= <- <-].
  assert (Hfiles : files' = <[summaryPath := summary]> files).
  { revert Hfile. unfold handleSummarizeFile.
    destruct (loadMessagesFromFile parseJSON files fileName) as [[|msg messages]|];
      [done| |done].
    destruct (summarizeWithLLM fuel (msg :: messages)) as [[s t]|]; [|done].
    unfold saveSummaryToFile. by intros [= <- <- <- <-]. }
  subst files'. split_and!; [done|done|by rewrite lookup_insert_eq|].
  destruct (decide (pathJoin (pathDirname summaryPath)
                      (pathBasename summaryPath ".json" +:+ "-summary.txt")
                    = summaryPath)) as [->|Hne].
  - by rewrite lookup_insert_eq.
  - by rewrite lookup_insert_ne, lookup_insert_eq.
Qed.

(** X21. Messages saved by [saveMessagesToFile] are found again by
    [handleSummarizeFile] under the path that was returned, when
    [JSON.parse] reads back what [JSON.stringify] wrote: summarizing the
    file gives the summary and the requests of summarizing the messages
    themselves, and an empty retrieval makes the command fail. *)
Theorem saved_messages_are_summarized (fuel : nat) (files : gmap string string)
    (messages : list Message) (chatId : string) :
  parseJSON (stringifyJSON messages) = Some messages →
  let saved :=
    saveMessagesToFile pathJoin stringifyJSON dataPath now files messages chatId in
  loadMessagesFromFile parseJSON saved.1 saved.2 = Done messages
  ∧ match messages with
    | [] =>
        handleSummarizeFile pathJoin pathBasename pathDirname parseJSON fuel
          saved.1 saved.2
        = Some (Failed (Uncaught TypeError), saved.1, [])
    | _ :: _ =>
        ∀ summary trace,
          summarizeWithLLM fuel messages = Some (summary, trace) →
          ∃ files' summaryPath,
            handleSummarizeFile pathJoin pathBasename pathDirname parseJSON fuel
              saved.1 saved.2
            = Some (Done (summary, summaryPath), files', trace)
    end.
Proof.
  intros Hjson saved.
  assert (Hload : loadMessagesFromFile parseJSON saved.1 saved.2 = Done messages).
  { subst saved. unfold loadMessagesFromFile, saveMessagesToFile. simpl.
    by rewrite lookup_insert_eq, Hjson. }
  split; [exact Hload|].
  unfold handleSummarizeFile. rewrite Hload.
  destruct messages as [|msg messages]; [done|].
  intros summary trace ->. unfold saveSummaryToFile. by eexists _, _.
Qed.

(** *** The name of the messages file *)

Lemma characters_app (s1 s2 : string) :
  characters (s1 +:+ s2) = characters s1 ++ characters s2.
Proof.
  induction s1 as [|c s1 IH]; [done|].
  change (c :: characters (s1 +:+ s2) = c :: characters s1 ++ characters s2).
  by rewrite IH.
Qed.

Lemma replaceNonAlphaNumeric_characters (chatId : string) :
  Forall (λ c, isAlphaNumeric c = true ∨ c = "-"%char)
    (characters (replaceNonAlphaNumeric chatId))
  ∧ String.length (replaceNonAlphaNumeric chatId) = String.length chatId.
Proof.
  induction chatId as [|c rest [IH1 IH2]]; [by split|].
  cbn [replaceNonAlphaNumeric characters String.length]. split; [|by rewrite IH2].
  apply Forall_cons. split; [|done].
  destruct (isAlphaNumeric c) eqn:Hc; [by left|by right].
Qed.

Lemma pretty_N_char_digit (x : N) : isAlphaNumeric (pretty_N_char x) = true.
Proof. unfold pretty_N_char. by repeat case_match. Qed.

Lemma pretty_N_go_digits (x : N) (s : string) :
  Forall (λ c, isAlphaNumeric c = true) (characters s) →
  Forall (λ c, isAlphaNumeric c = true) (characters (pretty_N_go x s)).
Proof.
  revert s. induction (N.lt_wf_0 x) as [x _ IH]; intros s Hs.
  assert (x = 0 ∨ 0 < x)%N as [->|Hx] by lia; [by rewrite pretty_N_go_0|].
  rewrite pretty_N_go_step by done. apply IH; [by apply N.div_lt|].
  cbn [characters]. apply Forall_cons. split; [apply pretty_N_char_digit|done].
Qed.

Lemma pretty_N_digits (x : N) :
  Forall (λ c, isAlphaNumeric c = true) (characters (pretty x)).
Proof.
  unfold pretty, pretty_N. case_decide.
  - by repeat constructor.
  - apply pretty_N_go_digits. constructor.
Qed.

(** X22. Whatever the chat identifier, the name of the messages file is
    made of ASCII letters, digits, hyphens and the dot of its extension
    only, so it has no path separator; every other character of the
    identifier is replaced by a hyphen, one for one. *)
Theorem messages_file_name_is_safe (chatId : string) :
  Forall (λ c, isAlphaNumeric c = true ∨ c = "-"%char ∨ c = "."%char)
    (characters (messagesFileName now chatId))
  ∧ String.length (messagesFileName now chatId)
    = 11 + String.length chatId + String.length (pretty now).
Proof.
  unfold messagesFileName. split.
  - rewrite !characters_app, !Forall_app. split_and!.
    + by apply (bool_decide_unpack _).
    + eapply Forall_impl; [apply replaceNonAlphaNumeric_characters|].
      intros c [Hc|Hc]; [by left|by right; left].
    + by apply (bool_decide_unpack _).
    + eapply Forall_impl; [apply pretty_N_digits|]. intros c Hc. by left.
    + by apply (bool_decide_unpack _).
  - rewrite !length_append.
    destruct (replaceNonAlphaNumeric_characters chatId) as [_ ->].
    simpl. lia.
Qed.

End StorageFacts.

(** ** Which chunks are summarized, and what is sent *)

Lemma chunkLoop_covers (rest : list (list string)) (i : nat) (batchSummary : string)
    (h : list Event) (result : string) (trace : list Event) :
  chunkLoop i rest batchSummary h = (Ok result, trace) →
  length trace = length rest ∨ Exists overBudget rest.
Proof.
  revert i batchSummary h trace.
  induction rest as [|chunk rest IH]; intros i bs h trace.
  - rewrite chunkLoop_nil, run_ret. intros [= <- <-]. by left.
  - rewrite chunkLoop_cons. case_decide as Hbig.
    + intros _. right. apply Exists_cons_hd. by exists i, bs.
    + intros (content & t1 & t2 & Hcall & Hrest & ->)%bind_Ok_inv.
      apply complete_Ok_inv in Hcall as ->.
      destruct (IH _ _ _ _ Hrest) as [Hlen|Hover].
      * left. rewrite length_app. simpl. by rewrite Hlen.
      * right. by apply Exists_cons_tl.
Qed.

Lemma batchLoop_covers (messageChunks : list (list string))
    (remaining batchIndex : nat) (fullSummary : string) (h : list Event)
    (result : string) (trace : list Event) :
  length (drop (batchIndex * BATCH_SIZE) messageChunks) ≤ remaining * BATCH_SIZE →
  batchLoop messageChunks remaining batchIndex fullSummary h = (Ok result, trace) →
  callsTo getSummarizationSystemPrompt trace
  = length (drop (batchIndex * BATCH_SIZE) messageChunks)
  ∨ Exists overBudget messageChunks.
Proof.
  revert batchIndex fullSummary h trace.
  induction remaining as [|remaining IH]; intros bi fs h trace Hleft.
  { rewrite batchLoop_0, run_ret. intros [= <- <-]. left.
    unfold callsTo. simpl. lia. }
  rewrite batchLoop_S.
  intros (bs & t1 & t' & Hbatch & Hrest & ->)%bind_Ok_inv.
  apply bind_Ok_inv in Hrest as (fs' & t2 & t3 & Hcons & Hrest & ->).
  pose proof (consolidate_summarizations fs bs (h ++ t1)) as Ht2.
  rewrite Hcons in Ht2. simpl in Ht2.
  pose proof (currentBatch_length messageChunks bi) as Hlen.
  pose proof (chunkLoop_summary _ _ _ _ Hbatch) as (_ & Hle & Hkind).
  assert (Hsize : length (currentBatch messageChunks bi)
                  = BATCH_SIZE `min` length (drop (bi * BATCH_SIZE) messageChunks)).
  { by rewrite currentBatch_take, length_take. }
  destruct (chunkLoop_covers _ _ _ _ _ _ Hbatch) as [Hall|Hover].
  - destruct (IH (S bi) fs' ((h ++ t1) ++ t2) t3) as [Hcount|Hover]; [|exact Hrest| |by right].
    + unfold BATCH_SIZE in *. lia.
    + left. rewrite !callsTo_app, Ht2, Hkind, Hcount. lia.
  - right. apply Exists_exists in Hover as (chunk & Hin & Hover).
    apply Exists_exists. exists chunk. split; [|done].
    rewrite currentBatch_take in Hin.
    by apply (subseteq_drop (bi * BATCH_SIZE)), (subseteq_take BATCH_SIZE).
Qed.

(** X24. In a run that ends without an error, a chunk goes without a
    summarization request only because of the prompt budget: either every
    chunk got its request, or some chunk has a prompt that counts more than
    3800 tokens. *)
Theorem chunks_skipped_only_over_budget (fuel : nat) (messages : list Message)
    (messageChunks out : list (list string)) (result : string) (trace : list Event) :
  createTokenBasedChunks messages formatMessageCompact = Ok messageChunks →
  splitLoop fuel messageChunks 0 = Some out →
  tryBlock fuel messages = Some (Ok result, trace) →
  callsTo getSummarizationSystemPrompt trace = length out
  ∨ Exists overBudget out.
Proof.
  intros Hchunks Hsplit Hrun. unfold tryBlock in Hrun.
  rewrite Hchunks, Hsplit in Hrun. injection Hrun as Hrun.
  apply summarizeChunks_Ok_inv in Hrun as (fs & t0 & Hloop & Hcases).
  destruct (batchLoop_covers out (batchCount out) 0 "" [] fs t0) as [Hcount|Hover];
    [|exact Hloop| |by right].
  { rewrite drop_0. unfold batchCount, BATCH_SIZE.
    pose proof (Nat.div_mod_eq (length out + 2 - 1) 2).
    pose proof (Nat.mod_upper_bound (length out + 2 - 1) 2). lia. }
  left. rewrite drop_0 in Hcount.
  destruct system_prompts_distinct as (_ & Hsr & _).
  destruct Hcases as [[_ ->]|(_ & _ & ->)]; [|done].
  rewrite callsTo_app, callsTo_exchange, decide_False by done. lia.
Qed.

(** *** The requests *)

Lemma Inv_chunkLoop_paired (rest : list (list string)) (i : nat)
    (batchSummary : string) :
  Inv (λ e, configured e ∧ paired e) (chunkLoop i rest batchSummary).
Proof.
  revert i batchSummary. induction rest as [|chunk rest IH]; intros i bs.
  - rewrite chunkLoop_nil. apply Inv_ret.
  - rewrite chunkLoop_cons. case_decide as Hbig; [apply Inv_ret|].
    apply Inv_bind; [|intros; apply IH].
    apply Inv_complete. intros response. split; [done|]. left. split; [done|].
    exists bs, (join nl chunk). unfold chunkPrompt. simpl.
    destruct (_ && _); [by left|by right].
Qed.

Lemma Inv_summarizeChunks_paired (messageChunks : list (list string)) :
  Inv (λ e, configured e ∧ paired e) (summarizeChunks messageChunks).
Proof.
  assert (Hbatches : ∀ remaining batchIndex fullSummary,
            Inv (λ e, configured e ∧ paired e)
              (batchLoop messageChunks remaining batchIndex fullSummary)).
  { induction remaining as [|remaining IH]; intros bi fs;
      [rewrite batchLoop_0; apply Inv_ret|].
    rewrite batchLoop_S. apply Inv_bind; [apply Inv_chunkLoop_paired|]. intros bs.
    apply Inv_bind; [|intros; apply IH].
    unfold consolidate. case_decide as Hfs; [apply Inv_ret|].
    apply Inv_complete. intros response. split; [done|]. right. left.
    split; [done|]. by exists fs, bs. }
  unfold summarizeChunks. apply Inv_bind; [apply Hbatches|]. intros fs.
  unfold refine. case_decide; [|apply Inv_ret].
  apply Inv_complete. intros response. split; [done|]. right. right.
  split; [done|]. by exists fs.
Qed.

(** X25. Every request of a run goes to the configured address with the
    model name [local-model] and the configured temperature and completion
    limit, and its prompt is built with the template of its system
    instruction: the initial or the continuation template for a
    summarization, the consolidation template with a first summary that is
    not empty, the refinement template. *)
Theorem requests_are_configured (fuel : nat) (messages : list Message)
    (result : string) (trace : list Event) :
  summarizeWithLLM fuel messages = Some (result, trace) →
  Forall (λ e, configured e ∧ paired e) trace.
Proof.
  intros (r & Hrun & _)%summarizeWithLLM_inv.
  apply tryBlock_inv in Hrun as [(e & _ & _ & ->)|(cs & out & _ & _ & Hrun)];
    [constructor|].
  pose proof (inv_emits _ _ (Inv_summarizeChunks_paired out) []) as Hemit.
  by rewrite Hrun in Hemit.
Qed.

End Summarizer.

(** ** The earlier version, which estimates token counts *)

Lemma countTokens_estimateEncode (text : string) :
  countTokens estimateEncode text = estimateTokenCount text.
Proof.
  unfold countTokens, estimateEncode, estimateTokenCount.
  case_decide; [done|]. by rewrite length_replicate.
Qed.

Lemma estimateTokenCount_le (text : string) :
  estimateTokenCount text ≤ String.length text.
Proof.
  unfold estimateTokenCount. case_decide as Hempty; [lia|].
  destruct text as [|c text]; [done|]. cbn [String.length].
  pose proof (Nat.div_mod_eq (S (String.length text) + 2) 3).
  pose proof (Nat.mod_upper_bound (S (String.length text) + 2) 3). lia.
Qed.

(** X23. In the earlier version, where a text of n characters counts for
    n / 3 tokens rounded up, the split pass ends on whatever the chunker
    made, for every configuration and every formatter: no stored line can
    count more than 2000 tokens.  It leaves chunks that all count at most
    2000 tokens and hold the same lines. *)
Theorem estimate_split_pass_ends (config : Config) {A : Type} (messages : list A)
    (formatter : A → Outcome (option string)) (messageChunks : list (list string)) :
  createTokenBasedChunks estimateEncode config messages formatter = Ok messageChunks →
  ∃ fuel out,
    splitLoop estimateEncode fuel messageChunks 0 = Some out
    ∧ Forall (λ chunk, estimateTokenCount (join nl chunk) ≤ 2000) out
    ∧ concat out = concat messageChunks.
Proof.
  intros Hchunks.
  assert (Hchar : ∀ s, countTokens estimateEncode s ≤ String.length s).
  { intros s. rewrite countTokens_estimateEncode. apply estimateTokenCount_le. }
  destruct (mapOutcome formatter messages) as [formatted|e] eqn:Hmap.
  - destruct (createTokenBasedChunks_lines estimateEncode config messages formatter
                formatted Hmap) as (cs & Hcs & Hconcat).
    rewrite Hcs in Hchunks. injection Hchunks as ->.
    assert (Hlines : Forall (Forall (λ line, countTokens estimateEncode line ≤ 2000))
                       messageChunks).
    { apply Forall_concat. rewrite Hconcat. apply Forall_fmap, Forall_forall.
      intros line _. by apply stored_bounded. }
    destruct (splitLoop_terminates estimateEncode messageChunks 0 Hlines)
      as (fuel & out & Hout).
    exists fuel, out. split_and!; [done| |by apply (splitLoop_concat estimateEncode fuel _ 0)].
    eapply Forall_impl.
    + apply (splitLoop_bound estimateEncode fuel _ 0 _ Hout). by rewrite take_0.
    + intros chunk. unfold fits. by rewrite countTokens_estimateEncode.
  - unfold createTokenBasedChunks in Hchunks. by rewrite Hmap in Hchunks.
Qed.

(** ** The formatter on sample records *)




(** ** The chunker and the split pass on sample chats *)



Lemma chunks_fit_after_split_pass_witness :
  ∃ messageChunks out,
    createTokenBasedChunks charEncode defaultConfig longChat
      (formatMessageCompact sampleClock) = Ok messageChunks
    ∧ length <$> messageChunks = [10; 10; 1]
    ∧ splitLoop charEncode 100 messageChunks 0 = Some out
    ∧ length <$> out = [5; 5; 5; 5; 1]
    ∧ Forall (λ chunk, countTokens charEncode (join nl chunk) ≤ 2000
                       ∨ length chunk = 1) out.
Proof.
  eexists _, _. split_and!; [vm_compute; reflexivity..|].
  apply (chunks_fit_after_split_pass charEncode 100
           (match createTokenBasedChunks charEncode defaultConfig longChat
                    (formatMessageCompact sampleClock) with
            | Ok messageChunks => messageChunks
            | Throw _ => []
            end)).
  vm_compute. reflexivity.
Defined.

(** C6 fails on a message whose author name is 1000 characters that take
    three tokens each: its line, cut to 1000 characters, still counts more
    than 2000 tokens, the split pass splits the chunk of that one line into
    an empty chunk and itself for ever, and the run does not return,
    however many iterations it is given. *)
Theorem split_pass_never_ends_on_long_line (llm : LLM) (fuel : nat) :
  (∃ line, createTokenBasedChunks wideEncode defaultConfig [wideAuthorMessage]
             (formatMessageCompact sampleClock) = Ok [[line]]
           ∧ countTokens wideEncode line = 3023)
  ∧ summarizeWithLLM wideEncode sampleClock defaultConfig llm fuel [wideAuthorMessage]
    = None.
Proof.
  assert (Hchunks : ∃ line,
            createTokenBasedChunks wideEncode defaultConfig [wideAuthorMessage]
              (formatMessageCompact sampleClock) = Ok [[line]]
            ∧ countTokens wideEncode line = 3023).
  { eexists. split; vm_compute; reflexivity. }
  split; [exact Hchunks|]. destruct Hchunks as (line & Hchunks & Hcount).
  unfold summarizeWithLLM, tryBlock. rewrite Hchunks.
  rewrite (splitLoop_diverges wideEncode fuel [[line]] 0 0 line); [done|lia|done|lia].
Qed.

(** ** Runs of the pipeline on a sample chat *)

(** C1 fails on consolidation and refinement requests.  The chat of 21
    messages makes five chunks; the server answers every request with 3000
    characters, which [MAX_COMPLETION_TOKENS=3000] allows; with one token per
    character the consolidation prompts count 6862 tokens and the refinement
    prompt 3878, and they are sent. *)
Lemma consolidation_request_over_budget :
  ∃ result trace consolidation refinement,
    summarizeWithLLM charEncode sampleClock roomyConfig
      (constLLM (Completion (repeatChar 3000 "x"))) 100 longChat
    = Some (result, trace)
    ∧ trace !! 2 = Some consolidation
    ∧ system (ev_request consolidation) = getConsolidationSystemPrompt
    ∧ N.of_nat (countTokens charEncode (user (ev_request consolidation))) = 6862%N
    ∧ trace !! 5 = Some refinement
    ∧ system (ev_request refinement) = getRefinementSystemPrompt
    ∧ countTokens charEncode (user (ev_request refinement)) = 3878.
Proof. eexists _, _, _, _. split_and!; [vm_compute; reflexivity..]. Qed.

Lemma summarization_requests_within_budget_witness :
  ∃ result trace,
    summarizeWithLLM charEncode sampleClock roomyConfig
      (constLLM (Completion (repeatChar 3000 "x"))) 100 longChat
    = Some (result, trace)
    ∧ length trace = 6
    ∧ Forall (withinBudget charEncode) trace.
Proof.
  edestruct (summarization_requests_within_budget charEncode sampleClock roomyConfig
               (constLLM (Completion (repeatChar 3000 "x"))) 100 longChat)
    as (Hbudget & _); [vm_compute; reflexivity|].
  eexists _, _. split_and!; [| |exact Hbudget]; vm_compute; reflexivity.
Defined.

Lemma fallback_on_completion_error_witness :
  ∃ result trace e,
    summarizeWithLLM charEncode sampleClock defaultConfig (failingAt 3 "ok") 100 longChat
    = Some (result, trace)
    ∧ trace !! 3 = Some e
    ∧ ev_response e = Rejected
    ∧ result = fallbackMessage
    ∧ length trace = 4.
Proof.
  edestruct (fallback_on_completion_error charEncode sampleClock defaultConfig
               (failingAt 3 "ok") 100 longChat) with (i := 3)
    as (Hresult & Hlast & _); [vm_compute; reflexivity..|].
  eexists _, _, _.
  split_and!; [| | |exact Hresult|symmetry; exact Hlast]; vm_compute; reflexivity.
Defined.




Lemma nothing_to_summarize_witness :
  createTokenBasedChunks charEncode defaultConfig [blankMessage; mediaMessage]
    (formatMessageCompact sampleClock) = Ok []
  ∧ summarizeWithLLM charEncode sampleClock defaultConfig (constLLM Rejected) 1
      [blankMessage; mediaMessage] = Some ("", []).
Proof.
  destruct (nothing_to_summarize charEncode sampleClock defaultConfig
              (constLLM Rejected) 1 [blankMessage; mediaMessage])
    as (Hchunks & Hrun & _).
  - repeat constructor.
  - lia.
  - by split.
Defined.

(** ** The further properties on sample inputs *)

Lemma chunks_within_budget_witness :
  ∃ messageChunks,
    createTokenBasedChunks charEncode defaultConfig longChat
      (formatMessageCompact sampleClock) = Ok messageChunks
    ∧ length messageChunks = 3
    ∧ Forall (λ chunk, (Z.of_nat (recount charEncode chunk)
                        ≤ maxChunkTokens defaultConfig)%Z) messageChunks.
Proof.
  eexists. split_and!; [vm_compute; reflexivity..|].
  apply (chunks_within_budget charEncode defaultConfig longChat
           (formatMessageCompact sampleClock)
           (match mapOutcome (formatMessageCompact sampleClock) longChat with
            | Ok formatted => formatted
            | Throw _ => []
            end)).
  - vm_compute. reflexivity.
  - apply (bool_decide_unpack _). vm_compute. reflexivity.
  - vm_compute. reflexivity.
Defined.

Lemma malformed_record_aborts_run_witness :
  formatMessageCompact sampleClock brokenReply = Throw TypeError
  ∧ summarizeWithLLM charEncode sampleClock defaultConfig (constLLM (Completion "ok"))
      0 (longChat ++ [brokenReply])
    = Some (fallbackMessage, []).
Proof.
  split; [vm_compute; reflexivity|].
  apply (malformed_record_aborts_run charEncode sampleClock defaultConfig
           (constLLM (Completion "ok")) 0 (longChat ++ [brokenReply])
           brokenReply TypeError).
  - apply elem_of_app. right. constructor.
  - vm_compute. reflexivity.
Defined.

Lemma split_pass_keeps_lines_witness :
  ∃ messageChunks out,
    createTokenBasedChunks charEncode defaultConfig longChat
      (formatMessageCompact sampleClock) = Ok messageChunks
    ∧ splitLoop charEncode 100 messageChunks 0 = Some out
    ∧ length messageChunks = 3 ∧ length out = 5
    ∧ concat out = concat messageChunks.
Proof.
  eexists _, _. split_and!; [vm_compute; reflexivity..|].
  apply (split_pass_keeps_lines charEncode 100). vm_compute. reflexivity.
Defined.

Lemma split_pass_ends_when_lines_fit_witness :
  Forall (Forall (λ line, countTokens charEncode line ≤ 2000))
    [[repeatChar 1500 "a"; repeatChar 1500 "b"]; ["c"]]
  ∧ ∃ fuel out,
      splitLoop charEncode fuel [[repeatChar 1500 "a"; repeatChar 1500 "b"]; ["c"]] 0
      = Some out
      ∧ Forall (λ chunk, countTokens charEncode (join nl chunk) ≤ 2000) out
      ∧ concat out = [repeatChar 1500 "a"; repeatChar 1500 "b"; "c"].
Proof.
  assert (H : Forall (Forall (λ line, countTokens charEncode line ≤ 2000))
                [[repeatChar 1500 "a"; repeatChar 1500 "b"]; ["c"]]).
  { apply (bool_decide_unpack _). vm_compute. reflexivity. }
  split; [exact H|].
  exact (split_pass_ends_when_lines_fit charEncode _ H).
Defined.

Lemma split_pass_leaves_fitting_chunks_witness :
  splitLoop charEncode 3 [["good morning"; "hello"]; ["see you"]] 0
  = Some [["good morning"; "hello"]; ["see you"]].
Proof.
  apply (split_pass_leaves_fitting_chunks charEncode).
  - apply (bool_decide_unpack _). vm_compute. reflexivity.
  - simpl. lia.
Defined.

Lemma split_pass_stuck_on_long_line_witness :
  countTokens charEncode (repeatChar 2001 "x") = 2001
  ∧ splitLoop charEncode 50 [["hello"]; [repeatChar 2001 "x"]; ["bye"]] 0 = None.
Proof.
  split; [vm_compute; reflexivity|].
  apply (split_pass_stuck_on_long_line charEncode _ (repeatChar 2001 "x")).
  - apply (bool_decide_unpack _). vm_compute. reflexivity.
  - apply Nat.ltb_lt. vm_compute. reflexivity.
Defined.

Lemma batch_summary_is_joined_answers_witness :
  ∃ trace,
    chunkLoop charEncode defaultConfig (failingAt 5 "seen") 0
      [["good morning"; "hello"]; ["see you"]] "" []
    = (Ok ("seen" +:+ nl +:+ nl +:+ "seen"), trace)
    ∧ answers trace = ["seen"; "seen"]
    ∧ length trace ≤ 2.
Proof.
  edestruct (batch_summary_is_joined_answers charEncode defaultConfig (failingAt 5 "seen")
               [["good morning"; "hello"]; ["see you"]] [])
    as (_ & Hlen & _); [vm_compute; reflexivity|].
  eexists. split_and!; [| |exact Hlen]; vm_compute; reflexivity.
Defined.

Lemma single_batch_summary_is_verbatim_witness :
  ∃ trace,
    summarizeWithLLM charEncode sampleClock defaultConfig (constLLM (Completion "seen"))
      10 [textMessage "alice" "hi"; textMessage "bob" "hello"]
    = Some ("seen", trace)
    ∧ length trace = 1
    ∧ callsTo getSummarizationSystemPrompt trace = length trace.
Proof.
  edestruct (single_batch_summary_is_verbatim charEncode sampleClock defaultConfig
               (constLLM (Completion "seen")) 10
               [textMessage "alice" "hi"; textMessage "bob" "hello"])
    as (Hrun & _ & _ & Hkind); [vm_compute; reflexivity..| |vm_compute; reflexivity|].
  { vm_compute. lia. }
  eexists. split_and!; [exact Hrun| |exact Hkind]. vm_compute. reflexivity.
Defined.

Lemma requests_bounded_witness :
  ∃ result trace,
    summarizeWithLLM charEncode sampleClock defaultConfig (constLLM (Completion "seen"))
      100 longChat
    = Some (result, trace)
    ∧ length trace = 8
    ∧ callsTo getSummarizationSystemPrompt trace ≤ 5
    ∧ callsTo getConsolidationSystemPrompt trace ≤ 2
    ∧ callsTo getRefinementSystemPrompt trace ≤ 1.
Proof.
  edestruct (requests_bounded charEncode sampleClock defaultConfig
               (constLLM (Completion "seen")) 100 longChat)
    as (Hs & Hc & Hr & _); [vm_compute; reflexivity..|].
  eexists _, _. split_and!; [| |exact Hs|exact Hc|exact Hr]; vm_compute; reflexivity.
Defined.

Lemma batches_partition_chunks_witness :
  batchCount [["a"]; ["b"]; ["c"]] = 2
  ∧ currentBatch [["a"]; ["b"]; ["c"]] 0 ++ currentBatch [["a"]; ["b"]; ["c"]] 1
    = [["a"]; ["b"]; ["c"]]
  ∧ length (currentBatch [["a"]; ["b"]; ["c"]] 0) = BATCH_SIZE.
Proof.
  destruct (batches_partition_chunks [["a"]; ["b"]; ["c"]]) as [Hconcat Hsize].
  split_and!; [vm_compute; reflexivity|vm_compute; reflexivity|].
  destruct (Hsize 0) as [_ Hfull]; [apply Nat.ltb_lt; vm_compute; reflexivity|].
  apply Hfull. apply Nat.ltb_lt. vm_compute. reflexivity.
Defined.

Lemma countTokens_charEncode (s : string) :
  countTokens charEncode s ≤ String.length s.
Proof.
  unfold countTokens, charEncode. case_decide; [lia|].
  rewrite length_fmap. clear. induction s as [|c s IH]; simpl; lia.
Qed.

Lemma run_returns_when_tokens_at_most_characters_witness :
  ∃ fuel result trace,
    summarizeWithLLM charEncode sampleClock defaultConfig (failingAt 2 "seen")
      fuel longChat
    = Some (result, trace).
Proof.
  exact (run_returns_when_tokens_at_most_characters charEncode sampleClock defaultConfig
           (failingAt 2 "seen") longChat countTokens_charEncode).
Defined.


Lemma formatMessage_builds_complete_records_witness :
  ∃ m,
    formatMessage sampleISO rawReply false = Ok (inr m)
    ∧ author m = Some "Erin"
    ∧ quotedMsg m = Some {| q_author := Some "Unknown"; q_body := Some "" |}
    ∧ body m = raw_body rawReply.
Proof.
  eexists. split_and!; [vm_compute; reflexivity..|].
  edestruct (formatMessage_builds_complete_records sampleISO rawReply)
    as (_ & Hbody & _); [vm_compute; reflexivity|].
  exact Hbody.
Defined.

Lemma built_message_dropped_iff_no_text_witness :
  ∃ m,
    formatMessage sampleISO rawReply false = Ok (inr m)
    ∧ ∃ r, formatMessageCompact sampleClock m = Ok r.
Proof.
  eexists. split; [vm_compute; reflexivity|].
  edestruct (built_message_dropped_iff_no_text sampleClock sampleISO rawReply)
    as (_ & Hok); [vm_compute; reflexivity|].
  exact Hok.
Defined.





Lemma summarizeCommand_saves_twice_witness :
  ∃ files'' trace,
    summarizeCommand charEncode sampleClock defaultConfig (constLLM (Completion "seen"))
      sampleJoin sampleBasename sampleDirname sampleParse 10
      {[ "chat.json" := "[chat]" ]} "chat.json"
    = Some (files'', trace)
    ∧ files'' !! "chat-summary.txt" = Some "seen"
    ∧ files'' !! "chat-summary.txt-summary.txt" = Some "seen".
Proof.
  eexists _, _. split_and!; [reflexivity..|].
  edestruct (summarizeCommand_saves_twice charEncode sampleClock defaultConfig
               (constLLM (Completion "seen"))
               sampleJoin sampleBasename sampleDirname sampleParse
               10 {[ "chat.json" := "[chat]" ]} "chat.json")
    as (_ & _ & Hsecond & _); [reflexivity| |reflexivity|].
  { discriminate. }
  exact Hsecond.
Defined.

Lemma saved_messages_are_summarized_witness :
  (saveMessagesToFile sampleJoin sampleStringify "data" 1744187783291 ∅
     shortChat "120363@g.us").2
  = "data/chat-120363-g-us-1744187783291.json"
  ∧ loadMessagesFromFile sampleParse
      (saveMessagesToFile sampleJoin sampleStringify "data" 1744187783291 ∅
         shortChat "120363@g.us").1
      "data/chat-120363-g-us-1744187783291.json"
    = Done shortChat.
Proof.
  split; [reflexivity|].
  apply (saved_messages_are_summarized charEncode sampleClock defaultConfig
           (constLLM (Completion "seen")) sampleJoin sampleBasename sampleDirname
           sampleParse sampleStringify "data" 1744187783291 0 ∅ shortChat "120363@g.us").
  reflexivity.
Defined.

Lemma estimate_split_pass_ends_witness :
  ∃ messageChunks fuel out,
    createTokenBasedChunks estimateEncode defaultConfig
      [textMessage (repeatChar 4800 "x") "hi"] (formatMessageCompact sampleClock)
    = Ok messageChunks
    ∧ String.length <$> concat messageChunks = [1037]
    ∧ splitLoop estimateEncode fuel messageChunks 0 = Some out
    ∧ Forall (λ chunk, estimateTokenCount (join nl chunk) ≤ 2000) out.
Proof.
  eexists. 
  edestruct (estimate_split_pass_ends defaultConfig
               [textMessage (repeatChar 4800 "x") "hi"] (formatMessageCompact sampleClock))
    as (fuel & out & Hsplit & Hfit & _); [vm_compute; reflexivity|].
  exists fuel, out. split_and!; [vm_compute; reflexivity..|exact Hsplit|exact Hfit].
Defined.
